(** * fix_tables.py: non-breaking spaces for code spans in markdown tables

    A shallow embedding of [src/fix_tables.py].  Python strings are modelled
    as lists of Unicode code points, the regular-expression substitution of
    [process_table_line] as the left-to-right scan that [re.sub] performs, and
    the file handling of [process_markdown_file] in a small state-and-exit
    monad over a file store and the two output streams. *)

From Stdlib Require Import String Ascii List NArith ZArith Bool Lia.
From Equations Require Import Equations.
Import ListNotations.

(** ** Python [str] primitives used by the script *)

Module Py.

(** A character is a Unicode code point; a [str] is a sequence of them. *)
Definition char := N.
Definition str := list char.

Definition SPACE : char := 32%N.      (* ' '       U+0020 *)
Definition NBSP : char := 160%N.      (* no-break U+00A0 *)
Definition HASH : char := 35%N.       (* '#'       U+0023 *)
Definition BACKTICK : char := 96%N.   (* '`'       U+0060 *)
Definition PIPE : char := 124%N.      (* '|'       U+007C *)
Definition NEWLINE : char := 10%N.    (* '\n'      U+000A *)

(** Literals of the development are written as Rocq strings (one code point
    per character, so only code points below 256 can be written this way). *)
Definition of_string (s : string) : str :=
  map N_of_ascii (list_ascii_of_string s).

(** [c in s] for a single-character [c]. *)
Fixpoint contains (c : char) (s : str) : bool :=
  match s with
  | [] => false
  | x :: rest => if N.eqb x c then true else contains c rest
  end.

(** [s.find(c)] for a single-character [c]: the lowest index, or -1. *)
Fixpoint find (c : char) (s : str) : Z :=
  match s with
  | [] => (-1)%Z
  | x :: rest =>
      if N.eqb x c then 0%Z
      else let k := find c rest in
           if (k <? 0)%Z then (-1)%Z else (k + 1)%Z
  end.

Definition len (s : str) : Z := Z.of_nat (length s).

(** A slice bound as Python adjusts it: a negative bound counts from the
    end, and the result is clipped to [0, len]. *)
Definition slice_bound (n i : Z) : nat :=
  Z.to_nat (if (i <? 0)%Z then Z.max 0 (i + n) else Z.min i n).

(** [s[:k]] and [s[k:]]. *)
Definition slice_to (s : str) (k : Z) : str :=
  firstn (slice_bound (len s) k) s.
Definition slice_from (s : str) (k : Z) : str :=
  skipn (slice_bound (len s) k) s.

(** [s[i]]: a negative index counts from the end; [None] stands for the
    [IndexError] of an index out of range. *)
Definition getitem (s : str) (i : Z) : option char :=
  let n := len s in
  if ((i <? - n) || (n <=? i))%Z then None
  else nth_error s (Z.to_nat (if (i <? 0)%Z then i + n else i)).

(** [s.replace(old, new)] for single-character [old] and [new]: every
    occurrence is replaced, left to right. *)
Definition replace (old new : char) (s : str) : str :=
  map (fun c => if N.eqb c old then new else c) s.

(** [str.isspace] on one character (CPython's [_PyUnicode_IsWhitespace]). *)
Definition isspace (c : char) : bool :=
  ((9 <=? c) && (c <=? 13) || (28 <=? c) && (c <=? 32)
   || (c =? 133) || (c =? 160) || (c =? 5760)
   || (8192 <=? c) && (c <=? 8202)
   || (c =? 8232) || (c =? 8233) || (c =? 8239) || (c =? 8287)
   || (c =? 12288))%N.

(** [s.lstrip()], [s.rstrip()] and [s.strip()] without argument. *)
Fixpoint lstrip (s : str) : str :=
  match s with
  | [] => []
  | c :: rest => if isspace c then lstrip rest else s
  end.
Definition rstrip (s : str) : str := rev (lstrip (rev s)).
Definition strip (s : str) : str := rstrip (lstrip s).

(** [s.startswith(c)] for a single-character [c]. *)
Definition startswith (s : str) (c : char) : bool :=
  match s with
  | [] => false
  | x :: _ => N.eqb x c
  end.

(** [==] on strings. *)
Fixpoint eqb (s t : str) : bool :=
  match s, t with
  | [], [] => true
  | x :: s', y :: t' => N.eqb x y && eqb s' t'
  | _, _ => false
  end.

End Py.

Import Py.

(** ** [process_code_in_table] (lines 12-43) *)

(** The test [code_content[hash_pos - 1] == ' '].  The index is in range
    whenever the test is reached (lemma [space_probe_in_range] below), so
    the [IndexError] branch is never taken. *)
Definition char_at_is (s : str) (i : Z) (c : char) : bool :=
  match getitem s i with
  | Some x => N.eqb x c
  | None => false
  end.

Definition process_code_in_table (code_content : str) : str :=
  if contains HASH code_content then
    let hash_pos := find HASH code_content in
    if (0 <? hash_pos)%Z && char_at_is code_content (hash_pos - 1) SPACE then
      let before_space :=
        replace SPACE NBSP (slice_to code_content (hash_pos - 1)) in
      let comment_part :=
        replace SPACE NBSP (slice_from code_content hash_pos) in
      before_space ++ [SPACE] ++ comment_part
    else
      let before_hash :=
        replace SPACE NBSP (slice_to code_content hash_pos) in
      let comment_part :=
        replace SPACE NBSP (slice_from code_content hash_pos) in
      before_hash ++ comment_part
  else
    replace SPACE NBSP code_content.

(** ** [process_table_line] (lines 46-67) *)

(** The pattern is [`([^`]+)`].  [take_run] is the greedy run that [[^`]+]
    consumes: the longest prefix without a backtick. *)
Fixpoint take_run (s : str) : str :=
  match s with
  | [] => []
  | c :: rest => if N.eqb c BACKTICK then [] else c :: take_run rest
  end.

(** One attempt of the pattern at the start of [s]; the result is
    [match.group(1)].  The run must hold at least one character ([+]) and be
    followed by a backtick.  A run that stops at the end of the string cannot
    be rescued by backtracking, since every shorter run is followed by a
    character that is not a backtick. *)
Definition match_at (s : str) : option str :=
  match s with
  | c :: rest =>
      if N.eqb c BACKTICK then
        let run := take_run rest in
        match run, skipn (length run) rest with
        | _ :: _, d :: _ => if N.eqb d BACKTICK then Some run else None
        | _, _ => None
        end
      else None
  | [] => None
  end.

(** What [re.sub] splits the line into: characters that no match covers,
    and matches (kept by their group 1). *)
Inductive piece : Type :=
| Lit (c : char)
| Code (content : str).

(** The scan of [re.sub]: at each position the pattern is tried; a match of
    group [g] covers [length g + 2] characters and the scan resumes after
    it, otherwise the character is copied and the scan moves on by one. *)
Equations? scan (s : str) : list piece by wf (length s) lt :=
  scan [] := [];
  scan (c :: rest) with match_at (c :: rest) := {
    | Some g := Code g :: scan (skipn (length g + 1) rest);
    | None := Lit c :: scan rest }.
Proof.
  all: try rewrite length_skipn; simpl; lia.
Qed.

(** [re.sub(pattern, repl, s)] with a callable [repl] that only reads
    group 1. *)
Definition re_sub (repl : str -> str) (s : str) : str :=
  flat_map (fun p => match p with
                     | Lit c => [c]
                     | Code g => repl g
                     end) (scan s).

(** The inner function [replace_code]: [f'`{processed_code}`']. *)
Definition replace_code (code_content : str) : str :=
  let processed_code := process_code_in_table code_content in
  [BACKTICK] ++ processed_code ++ [BACKTICK].

Definition process_table_line (line : str) : str :=
  let processed_line := re_sub replace_code line in
  processed_line.

(** The positions of a line that lie strictly inside a matched pair of
    backticks. *)
Definition span_mask (line : str) : list bool :=
  flat_map (fun p => match p with
                     | Lit _ => [false]
                     | Code g => [false] ++ repeat true (length g) ++ [false]
                     end) (scan line).

(** The contents of the matched spans, left to right. *)
Definition code_spans (line : str) : list str :=
  flat_map (fun p => match p with
                     | Lit _ => []
                     | Code g => [g]
                     end) (scan line).

(** ** The line loop of [process_markdown_file] (lines 87-101) *)

(** The two variables the loop updates. *)
Record loop_state : Type := LoopState {
  processed_lines : list str;
  in_table : bool
}.

(** The test [line.strip().startswith('|')]. *)
Definition is_table_line (line : str) : bool :=
  startswith (strip line) PIPE.

(** One iteration of [for line in lines]. *)
Definition loop_body (st : loop_state) (line : str) : loop_state :=
  if is_table_line line then
    let processed_line := process_table_line line in
    {| processed_lines := processed_lines st ++ [processed_line];
       in_table := true |}
  else
    let appended := processed_lines st ++ [line] in
    if in_table st && eqb (strip line) [] then
      {| processed_lines := appended; in_table := false |}
    else
      {| processed_lines := appended; in_table := in_table st |}.

Definition loop_init : loop_state :=
  {| processed_lines := []; in_table := false |}.

Definition run_loop (lines : list str) : loop_state :=
  fold_left loop_body lines loop_init.

(** ** Files and streams *)

(** [f.readlines()] on the decoded text of a file (universal newlines
    already translated, so a line ends at ['\n']); each line keeps its
    terminator. *)
Fixpoint readlines (text : str) : list str :=
  match text with
  | [] => []
  | c :: rest =>
      if N.eqb c NEWLINE then [c] :: readlines rest
      else match readlines rest with
           | [] => [[c]]
           | l :: ls => (c :: l) :: ls
           end
  end.

(** What [f.writelines(lines)] leaves in a file opened with ['w']. *)
Definition writelines (lines : list str) : str := concat lines.

(** How opening a path for writing can go wrong: the [open] itself is
    refused (the file is untouched), or the write breaks off after some
    characters reached the file. *)
Inductive write_fault : Type :=
| OpenRefused (cause : str)
| WriteTorn (cause : str) (written : nat).

Record world : Type := World {
  files : str -> option str;         (* path -> decoded text, if it exists *)
  read_fault : str -> option str;    (* the exception text of an unreadable path *)
  write_faults : str -> option write_fault;
  opened_for_write : list str;       (* every path given to open(..., 'w') *)
  stdout : list str;                 (* one entry per print *)
  stderr : list str
}.

(** A computation either returns or leaves through [sys.exit(code)]. *)
Inductive outcome (A : Type) : Type :=
| Ret (a : A)
| Exit (code : Z).
Arguments Ret {A} a.
Arguments Exit {A} code.

Definition M (A : Type) : Type := world -> outcome A * world.

Definition ret {A : Type} (a : A) : M A := fun w => (Ret a, w).

Definition bind {A B : Type} (m : M A) (k : A -> M B) : M B :=
  fun w => match m w with
           | (Ret a, w') => k a w'
           | (Exit code, w') => (Exit code, w')
           end.

Notation "x <- m ;; k" := (bind m (fun x => k))
  (at level 61, m at next level, right associativity).
Notation "m ;;; k" := (bind m (fun _ => k))
  (at level 61, right associativity).

Definition sys_exit {A : Type} (code : Z) : M A := fun w => (Exit code, w).

Definition print_stdout (msg : str) : M unit :=
  fun w => (Ret tt, {| files := files w; read_fault := read_fault w;
                       write_faults := write_faults w;
                       opened_for_write := opened_for_write w;
                       stdout := stdout w ++ [msg]; stderr := stderr w |}).

Definition print_stderr (msg : str) : M unit :=
  fun w => (Ret tt, {| files := files w; read_fault := read_fault w;
                       write_faults := write_faults w;
                       opened_for_write := opened_for_write w;
                       stdout := stdout w; stderr := stderr w ++ [msg] |}).

(** The three ways the first [try] block ends. *)
Inductive read_result : Type :=
| ReadLines (lines : list str)
| RaisedFileNotFoundError
| RaisedException (e : str).

(** [with open(filename, 'r', encoding='utf-8') as f: lines = f.readlines()] *)
Definition try_read (filename : str) : M read_result :=
  fun w => match files w filename with
           | None => (Ret RaisedFileNotFoundError, w)
           | Some text =>
               match read_fault w filename with
               | Some e => (Ret (RaisedException e), w)
               | None => (Ret (ReadLines (readlines text)), w)
               end
           end.

Definition set_file (fs : str -> option str) (path text : str)
  : str -> option str :=
  fun p => if eqb p path then Some text else fs p.

Definition record_write (w : world) (path : str) (fs : str -> option str)
  : world :=
  {| files := fs; read_fault := read_fault w;
     write_faults := write_faults w;
     opened_for_write := opened_for_write w ++ [path];
     stdout := stdout w; stderr := stderr w |}.

(** [with open(filename, 'w', encoding='utf-8') as f: f.writelines(...)];
    the result is the text of the exception raised, if any. *)
Definition try_write (filename : str) (lines : list str) : M (option str) :=
  fun w => match write_faults w filename with
           | None =>
               (Ret None,
                record_write w filename
                  (set_file (files w) filename (writelines lines)))
           | Some (OpenRefused cause) =>
               (Ret (Some cause), record_write w filename (files w))
           | Some (WriteTorn cause written) =>
               (Ret (Some cause),
                record_write w filename
                  (set_file (files w) filename
                     (firstn written (writelines lines))))
           end.

(** ** [process_markdown_file] (lines 70-109) and [main] (lines 112-119) *)

Definition msg_not_found (filename : str) : str :=
  of_string "Error: File '" ++ filename ++ of_string "' not found.".

Definition msg_read_error (filename e : str) : str :=
  of_string "Error reading file '" ++ filename ++ of_string "': " ++ e.

Definition msg_write_error (filename e : str) : str :=
  of_string "Error writing file '" ++ filename ++ of_string "': " ++ e.

Definition msg_success (filename : str) : str :=
  of_string "Successfully processed '" ++ filename ++ of_string "'".

Definition msg_usage : str :=
  of_string "Usage: python fix_tables.py <markdown_file>".

Definition process_markdown_file (filename : str) : M unit :=
  r <- try_read filename ;;
  lines <- match r with
           | ReadLines lines => ret lines
           | RaisedFileNotFoundError =>
               print_stderr (msg_not_found filename) ;;; sys_exit 1
           | RaisedException e =>
               print_stderr (msg_read_error filename e) ;;; sys_exit 1
           end ;;
  let st := run_loop lines in
  r <- try_write filename (processed_lines st) ;;
  match r with
  | None => print_stdout (msg_success filename)
  | Some e => print_stderr (msg_write_error filename e) ;;; sys_exit 1
  end.

(** [argv] is [sys.argv]: the script name, then the arguments. *)
Definition main (argv : list str) : M unit :=
  match argv with
  | [_; filename] => process_markdown_file filename
  | _ => print_stderr msg_usage ;;; sys_exit 1
  end.

(** The exit status of the process. *)
Definition exit_code {A : Type} (r : outcome A) : Z :=
  match r with
  | Ret _ => 0
  | Exit code => code
  end.

(** The text a successful run leaves in the file, as a function of the
    text it found there. *)
Definition normalize (text : str) : str :=
  writelines (processed_lines (run_loop (readlines text))).

(** ** Vocabulary of the statements *)

(** [k] is the index of the first ['#'] of [content]. *)
Definition first_hash (content : str) (k : nat) : Prop :=
  nth_error content k = Some HASH /\
  forall j, j < k -> nth_error content j <> Some HASH.

(** What may happen to one character: it is kept, or it is an ASCII space
    that became a no-break space. *)
Definition softens (a b : char) : Prop :=
  b = a \/ (a = SPACE /\ b = NBSP).

(** [ys] agrees with [xs] at every position that [mask] does not select. *)
Inductive agree_outside : list bool -> str -> str -> Prop :=
| agree_nil : agree_outside [] [] []
| agree_cons : forall m ms x xs y ys,
    (m = false -> y = x) ->
    agree_outside ms xs ys ->
    agree_outside (m :: ms) (x :: xs) (y :: ys).

(** Position [i] of [line] lies strictly between two backticks that have
    no backtick between them. *)
Definition inside_pair (line : str) (i : nat) : Prop :=
  exists a b,
    a < i /\ i < b /\
    nth_error line a = Some BACKTICK /\ nth_error line b = Some BACKTICK /\
    forall j, a < j -> j < b -> nth_error line j <> Some BACKTICK.

(** The message [msg] contains the file name. *)
Definition names_file (msg filename : str) : Prop :=
  exists before after, msg = before ++ filename ++ after.

(** A file system without [t.md], and one that holds the table of the
    end-to-end scenario. *)
Definition empty_world : world :=
  {| files := fun _ => None; read_fault := fun _ => None;
     write_faults := fun _ => None; opened_for_write := [];
     stdout := []; stderr := [] |}.

Definition scenario_text : str :=
  of_string "| `x = 1 # comment` | y |" ++ [NEWLINE] ++ [NEWLINE]
  ++ of_string "A plain paragraph with `a b`." ++ [NEWLINE].

Definition scenario_world : world :=
  {| files := set_file (fun _ => None) (of_string "t.md") scenario_text;
     read_fault := fun _ => None;
     write_faults := fun _ => None; opened_for_write := [];
     stdout := []; stderr := [] |}.

(** The scenario file on a file system that refuses to open it for
    writing, and on one where the write breaks off after ten characters. *)
Definition readonly_world : world :=
  {| files := set_file (fun _ => None) (of_string "t.md") scenario_text;
     read_fault := fun _ => None;
     write_faults := fun _ => Some (OpenRefused (of_string "Permission denied"));
     opened_for_write := []; stdout := []; stderr := [] |}.


(** The shape of what [readlines] returns: every line but the last ends in
    its only newline; the last one may lack it but is not empty. *)
Inductive lines_ok : list str -> Prop :=
| lines_ok_nil : lines_ok []
| lines_ok_last : forall body,
    body <> [] -> ~ In NEWLINE body -> lines_ok [body]
| lines_ok_cons : forall body ls,
    ~ In NEWLINE body -> lines_ok ls ->
    lines_ok ((body ++ [NEWLINE]) :: ls).

(** The flag as section 4.1 of the specification words it. *)
Definition in_table_spec (flag : bool) (line : str) : bool :=
  if startswith (strip line) PIPE then true
  else if flag && eqb (strip line) [] then false
  else flag.

(** The stateless reading of the loop: table lines are normalized, every
    other line is copied. *)
Definition stateless_line_spec (line : str) : str :=
  if is_table_line line then process_table_line line else line.

Definition stateless_spec (lines : list str) : list str :=
  map stateless_line_spec lines.

(** [s.replace(' ', NBSP)], as the rewriter calls it. *)
Local Abbreviation nbsp := (replace SPACE NBSP).

(** * Properties *)

(** ** Python primitives *)

Lemma contains_In c s : contains c s = true <-> In c s.
Proof.
  induction s as [|x s IH]; simpl.
  - split; [discriminate | tauto].
  - destruct (N.eqb_spec x c) as [->|Hne].
    + split; auto.
    + rewrite IH. split; [tauto | intros [H|H]; [congruence | exact H]].
Qed.

Lemma contains_false c s : ~ In c s -> contains c s = false.
Proof.
  intros H. destruct (contains c s) eqn:E; [|reflexivity].
  apply contains_In in E. contradiction.
Qed.

Lemma find_nonneg_iff c s : (0 <= find c s)%Z <-> In c s.
Proof.
  induction s as [|x s IH]; simpl.
  - split; [lia | tauto].
  - destruct (N.eqb_spec x c) as [->|Hne].
    + split; [auto | lia].
    + destruct (Z.ltb_spec (find c s) 0).
      * split; [lia|]. intros [E|Hin]; [congruence|].
        apply IH in Hin. lia.
      * split; [|lia]. intros _. right. apply IH. lia.
Qed.

(** [find] returns the index of the first occurrence. *)
Lemma find_first c s k :
  nth_error s k = Some c ->
  (forall j, j < k -> nth_error s j <> Some c) ->
  find c s = Z.of_nat k.
Proof.
  revert k. induction s as [|x s IH]; intros k Hk Hbefore.
  - destruct k; discriminate.
  - destruct k as [|k]; simpl in *.
    + injection Hk as ->. now rewrite N.eqb_refl.
    + destruct (N.eqb_spec x c) as [->|Hne].
      * exfalso. apply (Hbefore 0); [lia | reflexivity].
      * rewrite (IH k Hk).
        -- destruct (Z.ltb_spec (Z.of_nat k) 0); lia.
        -- intros j Hj. apply (Hbefore (S j)). lia.
Qed.

Lemma find_is_first c s :
  In c s ->
  exists k, find c s = Z.of_nat k /\ nth_error s k = Some c /\
            forall j, j < k -> nth_error s j <> Some c.
Proof.
  induction s as [|x s IH]; intros Hin; [destruct Hin|].
  simpl. destruct (N.eqb_spec x c) as [->|Hne].
  - exists 0. repeat split; auto. intros j Hj. lia.
  - destruct Hin as [E|Hin]; [congruence|].
    destruct (IH Hin) as (k & Hf & Hk & Hb).
    exists (S k). rewrite Hf.
    destruct (Z.ltb_spec (Z.of_nat k) 0); [lia|].
    repeat split; [lia | exact Hk |].
    intros [|j] Hj; simpl; [congruence | apply Hb; lia].
Qed.

Lemma slice_bound_nat n k : k <= n -> slice_bound (Z.of_nat n) (Z.of_nat k) = k.
Proof.
  intros H. unfold slice_bound.
  destruct (Z.ltb_spec (Z.of_nat k) 0); lia.
Qed.

Lemma slice_to_nat s k : k <= length s -> slice_to s (Z.of_nat k) = firstn k s.
Proof. intros H. unfold slice_to, len. now rewrite slice_bound_nat. Qed.

Lemma slice_from_nat s k :
  k <= length s -> slice_from s (Z.of_nat k) = skipn k s.
Proof. intros H. unfold slice_from, len. now rewrite slice_bound_nat. Qed.

(** A slice [s[:k]] followed by [s[k:]] is [s], whatever [k] is. *)
Lemma slice_to_from s k : slice_to s k ++ slice_from s k = s.
Proof. apply firstn_skipn. Qed.

Lemma getitem_nat s k :
  k < length s -> getitem s (Z.of_nat k) = nth_error s k.
Proof.
  intros H. unfold getitem, len.
  destruct (Z.ltb_spec (Z.of_nat k) (- Z.of_nat (length s))); [lia|].
  destruct (Z.leb_spec (Z.of_nat (length s)) (Z.of_nat k)); [lia|].
  simpl. destruct (Z.ltb_spec (Z.of_nat k) 0); [lia|].
  now rewrite Nat2Z.id.
Qed.

Lemma nth_error_lt {A} (l : list A) k x : nth_error l k = Some x -> k < length l.
Proof. intros H. apply nth_error_Some. congruence. Qed.

(** The index [hash_pos - 1] is in range whenever the code reads it: no
    [IndexError] is raised. *)
Lemma space_probe_in_range (code_content : str) :
  contains HASH code_content = true ->
  (0 < find HASH code_content)%Z ->
  getitem code_content (find HASH code_content - 1) <> None.
Proof.
  intros Hc Hpos. apply contains_In in Hc.
  destruct (find_is_first _ _ Hc) as (k & Hf & Hk & _).
  rewrite Hf in *. apply nth_error_lt in Hk.
  replace (Z.of_nat k - 1)%Z with (Z.of_nat (k - 1)) by lia.
  rewrite getitem_nat by lia. apply nth_error_Some. lia.
Qed.

Lemma replace_length old new s : length (replace old new s) = length s.
Proof. apply length_map. Qed.

Lemma replace_app old new s t :
  replace old new (s ++ t) = replace old new s ++ replace old new t.
Proof. apply map_app. Qed.

Lemma replace_absent old new s : ~ In old s -> replace old new s = s.
Proof.
  induction s as [|x s IH]; intros H; simpl; [reflexivity|].
  destruct (N.eqb_spec x old) as [->|Hne].
  - exfalso. apply H. now left.
  - f_equal. apply IH. intros Hin. apply H. now right.
Qed.

Lemma replace_removes old new s : old <> new -> ~ In old (replace old new s).
Proof.
  intros Hne. induction s as [|x s IH]; simpl; [tauto|].
  intros [E|Hin]; [|exact (IH Hin)].
  destruct (N.eqb_spec x old); congruence.
Qed.

Lemma replace_idempotent old new s :
  old <> new -> replace old new (replace old new s) = replace old new s.
Proof. intros H. apply replace_absent. now apply replace_removes. Qed.

Lemma replace_keeps_absent old new c s :
  c <> new -> ~ In c s -> ~ In c (replace old new s).
Proof.
  intros Hne. induction s as [|x s IH]; simpl; [tauto|].
  intros Hnot [E|Hin].
  - destruct (N.eqb_spec x old); [congruence|]. apply Hnot. now left.
  - apply IH; [|exact Hin]. intros H. apply Hnot. now right.
Qed.

Lemma replace_softens s : Forall2 softens s (replace SPACE NBSP s).
Proof.
  induction s as [|x s IH]; simpl; constructor; [|exact IH].
  destruct (N.eqb_spec x SPACE) as [->|Hne]; [right|left]; auto.
Qed.

(** ** The space rewriter *)

Lemma first_hash_found content k :
  first_hash content k ->
  contains HASH content = true /\ find HASH content = Z.of_nat k /\
  k < length content.
Proof.
  intros [Hk Hb]. repeat split.
  - apply contains_In. eapply nth_error_In; eassumption.
  - now apply find_first.
  - eapply nth_error_lt; eassumption.
Qed.

Lemma process_branch_none content :
  ~ In HASH content -> process_code_in_table content = nbsp content.
Proof.
  intros H. unfold process_code_in_table. now rewrite contains_false.
Qed.

Lemma process_branch_space content k :
  first_hash content k -> 0 < k ->
  nth_error content (k - 1) = Some SPACE ->
  process_code_in_table content
  = nbsp (firstn (k - 1) content) ++ [SPACE] ++ nbsp (skipn k content).
Proof.
  intros Hfh Hpos Hsp. destruct (first_hash_found _ _ Hfh) as (Hc & Hf & Hlt).
  unfold process_code_in_table. rewrite Hc, Hf.
  replace (Z.of_nat k - 1)%Z with (Z.of_nat (k - 1)) by lia.
  unfold char_at_is. rewrite getitem_nat by lia. rewrite Hsp.
  replace (0 <? Z.of_nat k)%Z with true by (symmetry; apply Z.ltb_lt; lia).
  simpl andb. cbv iota.
  rewrite slice_to_nat by lia. rewrite slice_from_nat by lia. reflexivity.
Qed.

Lemma process_branch_plain content k :
  first_hash content k ->
  k = 0 \/ nth_error content (k - 1) <> Some SPACE ->
  process_code_in_table content
  = nbsp (firstn k content) ++ nbsp (skipn k content).
Proof.
  intros Hfh Hcase. destruct (first_hash_found _ _ Hfh) as (Hc & Hf & Hlt).
  unfold process_code_in_table. rewrite Hc, Hf.
  assert (Hcond : (0 <? Z.of_nat k)%Z
                  && char_at_is content (Z.of_nat k - 1) SPACE = false).
  { destruct Hcase as [->|Hns]; [reflexivity|].
    destruct k as [|k]; [reflexivity|].
    replace (Z.of_nat (S k) - 1)%Z with (Z.of_nat (S k - 1)) by lia.
    unfold char_at_is. rewrite getitem_nat by lia.
    destruct (nth_error content (S k - 1)) as [x|] eqn:E.
    - destruct (N.eqb_spec x SPACE) as [->|Hne]; [congruence|].
      apply andb_false_r.
    - apply andb_false_r. }
  rewrite Hcond. rewrite slice_to_nat by lia. rewrite slice_from_nat by lia.
  reflexivity.
Qed.

Lemma first_hash_app pre post :
  ~ In HASH pre -> first_hash (pre ++ HASH :: post) (length pre).
Proof.
  intros Hno. split.
  - rewrite nth_error_app2 by lia. now rewrite Nat.sub_diag.
  - intros j Hj Hnth. rewrite nth_error_app1 in Hnth by exact Hj.
    apply Hno. eapply nth_error_In; eassumption.
Qed.

(** The same three branches, read on the shape of the content. *)
Lemma process_space_hash pre post :
  ~ In HASH pre ->
  process_code_in_table (pre ++ SPACE :: HASH :: post)
  = nbsp pre ++ SPACE :: HASH :: nbsp post.
Proof.
  intros Hno.
  assert (Hno' : ~ In HASH (pre ++ [SPACE])).
  { intros Hin. apply in_app_or in Hin. destruct Hin as [Hin|[E|[]]];
      [contradiction | discriminate]. }
  pose proof (first_hash_app _ post Hno') as Hfh.
  rewrite <- app_assoc in Hfh. simpl in Hfh. rewrite length_app in Hfh.
  simpl in Hfh.
  rewrite (process_branch_space _ _ Hfh); [|lia|].
  - replace (length pre + 1 - 1) with (length pre) by lia.
    rewrite firstn_app, Nat.sub_diag, firstn_all. simpl firstn.
    rewrite app_nil_r.
    replace (pre ++ SPACE :: HASH :: post)
      with ((pre ++ [SPACE]) ++ HASH :: post)
      by (now rewrite <- app_assoc).
    rewrite skipn_app.
    replace (length pre + 1) with (length (pre ++ [SPACE]))
      by (rewrite length_app; reflexivity).
    rewrite skipn_all, Nat.sub_diag. reflexivity.
  - replace (length pre + 1 - 1) with (length pre) by lia.
    rewrite nth_error_app2 by lia. now rewrite Nat.sub_diag.
Qed.

Lemma process_bare_hash pre post :
  ~ In HASH pre ->
  (forall pre', pre <> pre' ++ [SPACE]) ->
  process_code_in_table (pre ++ HASH :: post)
  = nbsp pre ++ HASH :: nbsp post.
Proof.
  intros Hno Hlast.
  rewrite (process_branch_plain _ _ (first_hash_app _ post Hno)).
  - rewrite firstn_app, Nat.sub_diag, firstn_all. simpl firstn.
    rewrite app_nil_r.
    rewrite skipn_app, skipn_all, Nat.sub_diag. reflexivity.
  - induction pre as [|x pre' _] using rev_ind; [now left | right].
    rewrite length_app. simpl.
    replace (length pre' + 1 - 1) with (length pre') by lia.
    rewrite <- app_assoc. simpl.
    rewrite nth_error_app2 by lia. rewrite Nat.sub_diag. simpl.
    intros E. injection E as ->. now apply (Hlast pre').
Qed.

Lemma first_split (c : char) s :
  In c s -> exists pre post, s = pre ++ c :: post /\ ~ In c pre.
Proof.
  induction s as [|x s IH]; intros Hin; [destruct Hin|].
  destruct (N.eq_dec x c) as [->|Hne].
  - exists [], s. split; [reflexivity | tauto].
  - destruct Hin as [E|Hin]; [congruence|].
    destruct (IH Hin) as (pre & post & -> & Hno).
    exists (x :: pre), post. split; [reflexivity|].
    intros [E|H]; [congruence | contradiction].
Qed.

(** Every content has one of the three shapes the branches tell apart. *)
Lemma hash_shape s :
  ~ In HASH s \/
  (exists pre post, s = pre ++ SPACE :: HASH :: post /\ ~ In HASH pre) \/
  (exists pre post, s = pre ++ HASH :: post /\ ~ In HASH pre /\
                    forall pre', pre <> pre' ++ [SPACE]).
Proof.
  destruct (in_dec N.eq_dec HASH s) as [Hin|Hno]; [|now left].
  right. destruct (first_split _ _ Hin) as (pre & post & -> & Hno).
  induction pre as [|x pre' _] using rev_ind.
  - right. exists [], post. repeat split; auto.
    intros [|y pre'] E; discriminate.
  - destruct (N.eq_dec x SPACE) as [->|Hne].
    + left. exists pre', post. rewrite <- app_assoc. split; [reflexivity|].
      intros H. apply Hno. apply in_or_app. now left.
    + right. exists (pre' ++ [x]), post. repeat split; auto.
      intros p E. apply app_inj_tail in E. destruct E as [_ E]. congruence.
Qed.

Lemma softens_refl a : softens a a.
Proof. now left. Qed.

Lemma process_softens s : Forall2 softens s (process_code_in_table s).
Proof.
  destruct (hash_shape s)
    as [Hno | [(pre & post & -> & Hno) | (pre & post & -> & Hno & Hl)]].
  - rewrite process_branch_none by exact Hno. apply replace_softens.
  - rewrite process_space_hash by exact Hno.
    apply Forall2_app; [apply replace_softens|].
    repeat (constructor; [apply softens_refl|]). apply replace_softens.
  - rewrite process_bare_hash by assumption.
    apply Forall2_app; [apply replace_softens|].
    constructor; [apply softens_refl | apply replace_softens].
Qed.

Lemma HASH_not_NBSP : HASH <> NBSP.
Proof. discriminate. Qed.

Lemma SPACE_not_NBSP : SPACE <> NBSP.
Proof. discriminate. Qed.

Lemma process_idempotent s :
  process_code_in_table (process_code_in_table s) = process_code_in_table s.
Proof.
  destruct (hash_shape s)
    as [Hno | [(pre & post & -> & Hno) | (pre & post & -> & Hno & Hl)]].
  - rewrite (process_branch_none s) by exact Hno.
    rewrite process_branch_none
      by (apply replace_keeps_absent; [apply HASH_not_NBSP | exact Hno]).
    apply replace_idempotent, SPACE_not_NBSP.
  - rewrite (process_space_hash pre post) by exact Hno.
    rewrite process_space_hash
      by (apply replace_keeps_absent; [apply HASH_not_NBSP | exact Hno]).
    now rewrite !replace_idempotent by apply SPACE_not_NBSP.
  - rewrite (process_bare_hash pre post) by assumption.
    rewrite process_bare_hash.
    + now rewrite !replace_idempotent by apply SPACE_not_NBSP.
    + apply replace_keeps_absent; [apply HASH_not_NBSP | exact Hno].
    + intros p E. apply (replace_removes SPACE NBSP pre SPACE_not_NBSP).
      rewrite E. apply in_or_app. right. now left.
Qed.

Lemma Forall2_nth_error {A B} (R : A -> B -> Prop) l l' :
  Forall2 R l l' ->
  forall i a, nth_error l i = Some a ->
  exists b, nth_error l' i = Some b /\ R a b.
Proof.
  induction 1 as [|x y l l' Hxy _ IH]; intros [|i] a Hi; try discriminate.
  - injection Hi as <-. exists y. now split.
  - exact (IH i a Hi).
Qed.

(** C1: the three branches of the space rewriter.  Without ['#'] every
    space becomes a no-break space; when the first ['#'] sits at index
    [hash_pos > 0] right after a space, the result is [content[0:hash_pos-1]]
    with its spaces converted, one ordinary space, then [content[hash_pos:]]
    with its spaces converted; otherwise the two halves [content[0:hash_pos]]
    and [content[hash_pos:]] are converted and joined with nothing between. *)
Theorem process_code_in_table_policy (content : str) :
  (~ In HASH content ->
   process_code_in_table content = replace SPACE NBSP content) /\
  (forall hash_pos,
      first_hash content hash_pos -> 0 < hash_pos ->
      nth_error content (hash_pos - 1) = Some SPACE ->
      process_code_in_table content
      = replace SPACE NBSP (firstn (hash_pos - 1) content)
        ++ [SPACE] ++ replace SPACE NBSP (skipn hash_pos content)) /\
  (forall hash_pos,
      first_hash content hash_pos ->
      hash_pos = 0 \/ nth_error content (hash_pos - 1) <> Some SPACE ->
      process_code_in_table content
      = replace SPACE NBSP (firstn hash_pos content)
        ++ replace SPACE NBSP (skipn hash_pos content)).
Proof.
  split; [|split].
  - apply process_branch_none.
  - apply process_branch_space.
  - apply process_branch_plain.
Qed.

Lemma first_hash_check content k :
  nth_error content k = Some HASH ->
  contains HASH (firstn k content) = false ->
  first_hash content k.
Proof.
  intros Hk Hc. split; [exact Hk|]. intros j Hj Hnth.
  assert (Hin : In HASH (firstn k content)).
  { apply nth_error_In with (n := j).
    rewrite nth_error_firstn. destruct (Nat.ltb_spec j k); [exact Hnth | lia]. }
  apply contains_In in Hin. congruence.
Qed.

(** The three branches at ["x y"], ["x = 1 # c d"] and ["x=1# c"]. *)
Lemma process_code_in_table_policy_witness :
  process_code_in_table (of_string "x y") = of_string "x" ++ [NBSP] ++ of_string "y" /\
  process_code_in_table (of_string "x = 1 # c d")
  = of_string "x" ++ [NBSP] ++ of_string "=" ++ [NBSP] ++ of_string "1 #"
    ++ [NBSP] ++ of_string "c" ++ [NBSP] ++ of_string "d" /\
  process_code_in_table (of_string "x=1# c")
  = of_string "x=1#" ++ [NBSP] ++ of_string "c".
Proof.
  split; [|split].
  - apply (proj1 (process_code_in_table_policy (of_string "x y"))).
    intros H. apply contains_In in H. discriminate H.
  - apply (proj1 (proj2 (process_code_in_table_policy
                           (of_string "x = 1 # c d"))) 6).
    + apply first_hash_check; reflexivity.
    + lia.
    + reflexivity.
  - apply (proj2 (proj2 (process_code_in_table_policy (of_string "x=1# c"))) 3).
    + apply first_hash_check; reflexivity.
    + right. discriminate.
Defined.

(** C2: on ["foo bar # baz"] the space before ['#'] (index 7) stays U+0020,
    every other space becomes U+00A0, and the result holds exactly one
    ordinary space. *)
Theorem comment_space_preserved :
  let content := of_string "foo bar # baz" in
  let result := process_code_in_table content in
  first_hash content 8 /\
  nth_error content 7 = Some SPACE /\
  nth_error result 7 = Some SPACE /\
  (forall i, i <> 7 -> nth_error content i = Some SPACE ->
             nth_error result i = Some NBSP) /\
  count_occ N.eq_dec result SPACE = 1 /\
  result = of_string "foo" ++ [NBSP] ++ of_string "bar #" ++ [NBSP]
           ++ of_string "baz".
Proof.
  cbv zeta. repeat split.
  - intros j Hj. do 8 (destruct j as [|j]; [discriminate|]). lia.
  - intros i Hi.
    do 14 (destruct i as [|i];
           [first [discriminate | contradiction | reflexivity]|]).
    destruct i; discriminate.
Qed.

Lemma comment_space_preserved_witness :
  nth_error (process_code_in_table (of_string "foo bar # baz")) 3 = Some NBSP.
Proof.
  apply (proj1 (proj2 (proj2 (proj2 comment_space_preserved))) 3);
    [discriminate | reflexivity].
Defined.

(** C3 as stated fails: on ["a # b # c"] the character before the first
    ['#'] is an ordinary space, so the result is not the string with a
    no-break space at index 1. *)
Lemma multiple_hashes_not_all_nbsp :
  process_code_in_table (of_string "a # b # c")
  <> of_string "a" ++ [NBSP] ++ of_string "#" ++ [NBSP] ++ of_string "b"
     ++ [NBSP] ++ of_string "#" ++ [NBSP] ++ of_string "c".
Proof. discriminate. Qed.

(** C3, amended: on ["a # b # c"] the first ['#'] (index 2) is the
    boundary; the result is ["a #"], NBSP, ["b"], NBSP, ["#"], NBSP, ["c"]:
    the only ordinary space left is the one before the first ['#'], and the
    space before the second ['#'] is converted like the others. *)
Theorem multiple_hashes_first_is_boundary :
  let content := of_string "a # b # c" in
  let result := process_code_in_table content in
  first_hash content 2 /\
  result = of_string "a #" ++ [NBSP] ++ of_string "b" ++ [NBSP]
           ++ of_string "#" ++ [NBSP] ++ of_string "c" /\
  nth_error result 1 = Some SPACE /\
  count_occ N.eq_dec result SPACE = 1 /\
  nth_error content 6 = Some HASH /\
  nth_error result 5 = Some NBSP.
Proof.
  cbv zeta. repeat split.
  intros j Hj. do 2 (destruct j as [|j]; [discriminate|]). lia.
Qed.

(** C10: the rewriter keeps the length, keeps every character that is not
    an ASCII space where it is, and leaves at the place of an ASCII space
    either that space or a no-break space. *)
Theorem process_code_in_table_pointwise (code_content : str) :
  length (process_code_in_table code_content) = length code_content /\
  forall i c,
    nth_error code_content i = Some c ->
    (c <> SPACE -> nth_error (process_code_in_table code_content) i = Some c) /\
    (c = SPACE ->
     nth_error (process_code_in_table code_content) i = Some SPACE \/
     nth_error (process_code_in_table code_content) i = Some NBSP).
Proof.
  pose proof (process_softens code_content) as H. split.
  - symmetry. eapply Forall2_length; eassumption.
  - intros i c Hi.
    destruct (Forall2_nth_error _ _ _ H i c Hi) as (b & Hb & [->|[-> ->]]).
    + split; [intros _; exact Hb | intros ->; left; exact Hb].
    + split; [congruence | intros _; right; exact Hb].
Qed.

Lemma process_code_in_table_pointwise_witness :
  nth_error (process_code_in_table (of_string "a b #")) 0 = Some 97%N /\
  (nth_error (process_code_in_table (of_string "a b #")) 1 = Some SPACE \/
   nth_error (process_code_in_table (of_string "a b #")) 1 = Some NBSP).
Proof.
  split.
  - apply (proj2 (process_code_in_table_pointwise (of_string "a b #")) 0 97%N);
      [reflexivity | discriminate].
  - apply (proj2 (process_code_in_table_pointwise (of_string "a b #"))
             1 SPACE); reflexivity.
Defined.

(** ** The scan of [re.sub] *)

Lemma take_run_clean s : ~ In BACKTICK (take_run s).
Proof.
  induction s as [|c s IH]; simpl; [tauto|].
  destruct (N.eqb_spec c BACKTICK) as [->|Hne]; simpl; [tauto|].
  intros [E|H]; [congruence | contradiction].
Qed.

Lemma take_run_prefix s : s = take_run s ++ skipn (length (take_run s)) s.
Proof.
  induction s as [|c s IH]; simpl; [reflexivity|].
  destruct (N.eqb_spec c BACKTICK) as [->|Hne]; simpl; [reflexivity|].
  now rewrite <- IH.
Qed.

Lemma take_run_stop s :
  skipn (length (take_run s)) s = [] \/
  exists tail, skipn (length (take_run s)) s = BACKTICK :: tail.
Proof.
  induction s as [|c s IH]; simpl; [now left|].
  destruct (N.eqb_spec c BACKTICK) as [->|Hne]; simpl; [|exact IH].
  right. now exists s.
Qed.

Lemma take_run_app g tail :
  ~ In BACKTICK g -> take_run (g ++ BACKTICK :: tail) = g.
Proof.
  induction g as [|c g IH]; intros Hno; simpl.
  - reflexivity.
  - destruct (N.eqb_spec c BACKTICK) as [->|Hne].
    + exfalso. apply Hno. now left.
    + f_equal. apply IH. intros H. apply Hno. now right.
Qed.

Lemma take_run_all g : ~ In BACKTICK g -> take_run g = g.
Proof.
  induction g as [|c g IH]; intros Hno; simpl; [reflexivity|].
  destruct (N.eqb_spec c BACKTICK) as [->|Hne].
  - exfalso. apply Hno. now left.
  - f_equal. apply IH. intros H. apply Hno. now right.
Qed.

Lemma skipn_length_app {A} (l1 l2 : list A) : skipn (length l1) (l1 ++ l2) = l2.
Proof. induction l1; simpl; auto. Qed.

Lemma match_at_other c rest : c <> BACKTICK -> match_at (c :: rest) = None.
Proof.
  intros Hne. simpl. now destruct (N.eqb_spec c BACKTICK).
Qed.

Lemma match_at_empty rest : match_at (BACKTICK :: BACKTICK :: rest) = None.
Proof. reflexivity. Qed.

Lemma match_at_open rest :
  ~ In BACKTICK rest -> match_at (BACKTICK :: rest) = None.
Proof.
  intros Hno. unfold match_at. rewrite N.eqb_refl. cbv zeta.
  rewrite take_run_all by exact Hno.
  destruct rest as [|x rest']; [reflexivity|]. now rewrite skipn_all.
Qed.

Lemma match_at_span g tail :
  g <> [] -> ~ In BACKTICK g ->
  match_at (BACKTICK :: g ++ BACKTICK :: tail) = Some g.
Proof.
  intros Hne Hno. unfold match_at. rewrite N.eqb_refl. cbv zeta.
  rewrite take_run_app by exact Hno.
  destruct g as [|x g']; [contradiction|].
  rewrite skipn_length_app. now rewrite N.eqb_refl.
Qed.

Lemma scan_cons c rest :
  scan (c :: rest)
  = match match_at (c :: rest) with
    | Some g => Code g :: scan (skipn (length g + 1) rest)
    | None => Lit c :: scan rest
    end.
Proof.
  rewrite scan_equation_2. destruct (match_at (c :: rest)); reflexivity.
Qed.

Lemma scan_other c rest :
  c <> BACKTICK -> scan (c :: rest) = Lit c :: scan rest.
Proof. intros H. now rewrite scan_cons, match_at_other. Qed.

Lemma scan_empty rest :
  scan (BACKTICK :: BACKTICK :: rest)
  = Lit BACKTICK :: scan (BACKTICK :: rest).
Proof. now rewrite scan_cons, match_at_empty. Qed.

Lemma scan_plain s : ~ In BACKTICK s -> scan s = map Lit s.
Proof.
  induction s as [|c s IH]; intros Hno; [apply scan_equation_1|].
  rewrite scan_other by (intros E; apply Hno; now left).
  simpl. f_equal. apply IH. intros H. apply Hno. now right.
Qed.

Lemma scan_open rest :
  ~ In BACKTICK rest ->
  scan (BACKTICK :: rest) = Lit BACKTICK :: map Lit rest.
Proof.
  intros Hno. rewrite scan_cons, match_at_open by exact Hno.
  now rewrite scan_plain.
Qed.

Lemma scan_span g tail :
  g <> [] -> ~ In BACKTICK g ->
  scan (BACKTICK :: g ++ BACKTICK :: tail) = Code g :: scan tail.
Proof.
  intros Hne Hno. rewrite scan_cons, match_at_span by assumption.
  replace (length g + 1) with (length (g ++ [BACKTICK]))
    by (rewrite length_app; reflexivity).
  replace (g ++ BACKTICK :: tail) with ((g ++ [BACKTICK]) ++ tail)
    by (now rewrite <- app_assoc).
  now rewrite skipn_length_app.
Qed.

(** The four ways a non-empty line can start, as the scan sees them. *)
Lemma line_shape s :
  s = [] \/
  (exists c rest, s = c :: rest /\ c <> BACKTICK) \/
  (exists rest, s = BACKTICK :: BACKTICK :: rest) \/
  (exists rest, s = BACKTICK :: rest /\ ~ In BACKTICK rest) \/
  (exists g tail, s = BACKTICK :: g ++ BACKTICK :: tail /\
                  g <> [] /\ ~ In BACKTICK g).
Proof.
  destruct s as [|c rest]; [now left | right].
  destruct (N.eq_dec c BACKTICK) as [->|Hne]; [right | left; eauto].
  pose proof (take_run_prefix rest) as Hsplit.
  pose proof (take_run_clean rest) as Hclean.
  destruct (take_run_stop rest) as [Hend | (tail & Hend)];
    rewrite Hend in Hsplit.
  - right. left. exists rest. split; [reflexivity|].
    rewrite Hsplit, app_nil_r. exact Hclean.
  - destruct (take_run rest) as [|x run] eqn:Hrun.
    + left. exists tail. simpl in Hsplit. now rewrite Hsplit.
    + right. right. exists (x :: run), tail. rewrite Hsplit at 1.
      repeat split; [discriminate | exact Hclean].
Qed.

(** Induction along the scan. *)
Lemma line_ind (P : list char -> Prop) :
  P [] ->
  (forall c rest, c <> BACKTICK -> P rest -> P (c :: rest)) ->
  (forall rest, P (BACKTICK :: rest) -> P (BACKTICK :: BACKTICK :: rest)) ->
  (forall rest, ~ In BACKTICK rest -> P (BACKTICK :: rest)) ->
  (forall g tail, g <> [] -> ~ In BACKTICK g -> P tail ->
                  P (BACKTICK :: g ++ BACKTICK :: tail)) ->
  forall s : list char, P s.
Proof.
  intros Hnil Hother Hempty Hopen Hspan s.
  remember (length s) as n eqn:Hn. revert s Hn.
  induction n as [n IH] using lt_wf_ind. intros s Hn.
  destruct (line_shape s)
    as [-> | [(c & rest & -> & Hc) | [(rest & ->) | [(rest & -> & Hno)
       | (g & tail & -> & Hg & Hno)]]]].
  - exact Hnil.
  - apply Hother; [exact Hc|]. apply (IH (length rest)); simpl in *; lia.
  - apply Hempty. apply (IH (length (BACKTICK :: rest))); simpl in *; lia.
  - now apply Hopen.
  - apply Hspan; [exact Hg | exact Hno |].
    apply (IH (length tail)); [|reflexivity].
    subst n. simpl. rewrite length_app. simpl. lia.
Qed.

(** ** [process_table_line], case by case *)

Lemma ptl_nil : process_table_line [] = [].
Proof. unfold process_table_line, re_sub. now rewrite scan_equation_1. Qed.

Lemma ptl_other c rest :
  c <> BACKTICK ->
  process_table_line (c :: rest) = c :: process_table_line rest.
Proof.
  intros H. unfold process_table_line, re_sub. now rewrite scan_other.
Qed.

Lemma ptl_empty rest :
  process_table_line (BACKTICK :: BACKTICK :: rest)
  = BACKTICK :: process_table_line (BACKTICK :: rest).
Proof. unfold process_table_line, re_sub. now rewrite scan_empty. Qed.

Lemma flat_map_Lit {B} (f : piece -> list B) (g : char -> B) s :
  (forall c, f (Lit c) = [g c]) -> flat_map f (map Lit s) = map g s.
Proof.
  intros Hf. induction s as [|c s IH]; simpl; [reflexivity|].
  now rewrite Hf, IH.
Qed.

Lemma ptl_plain s : ~ In BACKTICK s -> process_table_line s = s.
Proof.
  intros H. unfold process_table_line, re_sub. rewrite scan_plain by exact H.
  rewrite (flat_map_Lit _ (fun c => c)) by reflexivity. apply map_id.
Qed.

Lemma ptl_open rest :
  ~ In BACKTICK rest ->
  process_table_line (BACKTICK :: rest) = BACKTICK :: rest.
Proof.
  intros H. unfold process_table_line, re_sub. rewrite scan_open by exact H.
  simpl. f_equal.
  rewrite (flat_map_Lit _ (fun c => c)) by reflexivity. apply map_id.
Qed.

Lemma ptl_span g tail :
  g <> [] -> ~ In BACKTICK g ->
  process_table_line (BACKTICK :: g ++ BACKTICK :: tail)
  = BACKTICK :: process_code_in_table g ++ BACKTICK :: process_table_line tail.
Proof.
  intros Hg Hno. unfold process_table_line, re_sub.
  rewrite scan_span by assumption. simpl. unfold replace_code. simpl.
  now rewrite <- app_assoc.
Qed.

Lemma softens_all_refl s : Forall2 softens s s.
Proof. induction s; constructor; [apply softens_refl | assumption]. Qed.

Lemma ptl_softens line : Forall2 softens line (process_table_line line).
Proof.
  induction line as [|c rest Hc IH|rest IH|rest Hno|g tail Hg Hno IH]
    using line_ind.
  - rewrite ptl_nil. constructor.
  - rewrite ptl_other by exact Hc. constructor; [apply softens_refl | exact IH].
  - rewrite ptl_empty. constructor; [apply softens_refl | exact IH].
  - rewrite ptl_open by exact Hno. apply softens_all_refl.
  - rewrite ptl_span by assumption.
    constructor; [apply softens_refl|].
    apply Forall2_app; [apply process_softens|].
    constructor; [apply softens_refl | exact IH].
Qed.

Lemma ptl_length line : length (process_table_line line) = length line.
Proof. symmetry. eapply Forall2_length, ptl_softens. Qed.

Lemma softens_keeps (c : char) s s' :
  c <> SPACE -> c <> NBSP -> Forall2 softens s s' -> ~ In c s -> ~ In c s'.
Proof.
  intros Hs Hn H. induction H as [|x y l l' Hxy _ IH]; [tauto|].
  intros Hno [E|Hin].
  - destruct Hxy as [->|[-> ->]]; [|congruence].
    apply Hno. now left.
  - apply IH; [|exact Hin]. intros Hx. apply Hno. now right.
Qed.

Lemma BACKTICK_not_SPACE : BACKTICK <> SPACE.
Proof. discriminate. Qed.

Lemma BACKTICK_not_NBSP : BACKTICK <> NBSP.
Proof. discriminate. Qed.

Lemma process_keeps_backtick_free g :
  ~ In BACKTICK g -> ~ In BACKTICK (process_code_in_table g).
Proof.
  apply softens_keeps;
    [apply BACKTICK_not_SPACE | apply BACKTICK_not_NBSP | apply process_softens].
Qed.

Lemma process_keeps_nonempty g : g <> [] -> process_code_in_table g <> [].
Proof.
  intros Hg E. apply Hg. apply length_zero_iff_nil.
  pose proof (Forall2_length (process_softens g)) as Hl.
  rewrite E in Hl. exact Hl.
Qed.

(** The output of [process_table_line] starts with a backtick when its
    input does. *)
Lemma ptl_head_backtick rest :
  exists out, process_table_line (BACKTICK :: rest) = BACKTICK :: out.
Proof.
  pose proof (ptl_softens (BACKTICK :: rest)) as H.
  inversion H as [|x y l l' Hxy Hrest]; subst.
  exists l'. destruct Hxy as [->|[E _]]; [reflexivity | discriminate].
Qed.

Lemma ptl_idempotent line :
  process_table_line (process_table_line line) = process_table_line line.
Proof.
  induction line as [|c rest Hc IH|rest IH|rest Hno|g tail Hg Hno IH]
    using line_ind.
  - now rewrite !ptl_nil.
  - rewrite (ptl_other c rest) by exact Hc.
    rewrite ptl_other by exact Hc. now rewrite IH.
  - rewrite (ptl_empty rest).
    destruct (ptl_head_backtick rest) as (out & Hout).
    rewrite Hout in *. rewrite ptl_empty. now rewrite IH.
  - rewrite (ptl_open rest) by exact Hno. now apply ptl_open.
  - rewrite (ptl_span g tail) by assumption.
    rewrite ptl_span
      by (try apply process_keeps_nonempty;
          try apply process_keeps_backtick_free; assumption).
    now rewrite process_idempotent, IH.
Qed.

(** Text without a backtick on either side of a line is outside every
    span. *)
Lemma ptl_plain_prefix pre s :
  ~ In BACKTICK pre ->
  process_table_line (pre ++ s) = pre ++ process_table_line s.
Proof.
  induction pre as [|c pre IH]; intros Hno; [reflexivity|].
  simpl. rewrite ptl_other by (intros E; apply Hno; now left).
  f_equal. apply IH. intros H. apply Hno. now right.
Qed.

Lemma ptl_plain_suffix s rest :
  ~ In BACKTICK rest ->
  process_table_line (s ++ rest) = process_table_line s ++ rest.
Proof.
  intros Hrest.
  induction s as [|c s Hc IH|s IH|s Hno|g tail Hg Hno IH] using line_ind.
  - rewrite ptl_nil. simpl. now apply ptl_plain.
  - simpl. rewrite !ptl_other by exact Hc. simpl. now rewrite IH.
  - simpl. rewrite !ptl_empty. simpl. f_equal. exact IH.
  - simpl. rewrite !ptl_open; [reflexivity | exact Hno |].
    intros H. apply in_app_or in H. tauto.
  - simpl. rewrite <- app_assoc. simpl.
    rewrite !ptl_span by assumption. rewrite IH. simpl.
    now rewrite <- app_assoc.
Qed.

(** ** Matched spans and the positions they cover *)

Lemma mask_nil : span_mask [] = [].
Proof. unfold span_mask. now rewrite scan_equation_1. Qed.

Lemma mask_other c rest :
  c <> BACKTICK -> span_mask (c :: rest) = false :: span_mask rest.
Proof. intros H. unfold span_mask. now rewrite scan_other. Qed.

Lemma mask_empty rest :
  span_mask (BACKTICK :: BACKTICK :: rest)
  = false :: span_mask (BACKTICK :: rest).
Proof. unfold span_mask. now rewrite scan_empty. Qed.

Lemma map_const_repeat {A B} (b : B) (l : list A) :
  map (fun _ => b) l = repeat b (length l).
Proof. induction l; simpl; congruence. Qed.

Lemma mask_plain s : ~ In BACKTICK s -> span_mask s = repeat false (length s).
Proof.
  intros H. unfold span_mask. rewrite scan_plain by exact H.
  rewrite (flat_map_Lit _ (fun _ => false)) by reflexivity.
  apply map_const_repeat.
Qed.

Lemma mask_open rest :
  ~ In BACKTICK rest ->
  span_mask (BACKTICK :: rest) = false :: repeat false (length rest).
Proof.
  intros H. unfold span_mask. rewrite scan_open by exact H. simpl. f_equal.
  rewrite (flat_map_Lit _ (fun _ => false)) by reflexivity.
  apply map_const_repeat.
Qed.

Lemma mask_span g tail :
  g <> [] -> ~ In BACKTICK g ->
  span_mask (BACKTICK :: g ++ BACKTICK :: tail)
  = false :: repeat true (length g) ++ false :: span_mask tail.
Proof.
  intros Hg Hno. unfold span_mask. rewrite scan_span by assumption.
  simpl. now rewrite <- app_assoc.
Qed.

Lemma spans_other c rest :
  c <> BACKTICK -> code_spans (c :: rest) = code_spans rest.
Proof. intros H. unfold code_spans. now rewrite scan_other. Qed.

Lemma spans_empty rest :
  code_spans (BACKTICK :: BACKTICK :: rest) = code_spans (BACKTICK :: rest).
Proof. unfold code_spans. now rewrite scan_empty. Qed.

Lemma spans_plain s : ~ In BACKTICK s -> code_spans s = [].
Proof.
  intros H. unfold code_spans. rewrite scan_plain by exact H.
  clear H. induction s; simpl; auto.
Qed.

Lemma spans_open rest :
  ~ In BACKTICK rest -> code_spans (BACKTICK :: rest) = [].
Proof.
  intros H. unfold code_spans. rewrite scan_open by exact H. simpl.
  clear H. induction rest; simpl; auto.
Qed.

Lemma spans_span g tail :
  g <> [] -> ~ In BACKTICK g ->
  code_spans (BACKTICK :: g ++ BACKTICK :: tail) = g :: code_spans tail.
Proof.
  intros Hg Hno. unfold code_spans. now rewrite scan_span by assumption.
Qed.

Lemma spans_wellformed line :
  Forall (fun g => g <> [] /\ ~ In BACKTICK g) (code_spans line).
Proof.
  induction line as [|c rest Hc IH|rest IH|rest Hno|g tail Hg Hno IH]
    using line_ind.
  - unfold code_spans. rewrite scan_equation_1. constructor.
  - now rewrite spans_other.
  - now rewrite spans_empty.
  - rewrite spans_open by exact Hno. constructor.
  - rewrite spans_span by assumption. constructor; auto.
Qed.

Lemma agree_same ms s : length ms = length s -> agree_outside ms s s.
Proof.
  revert ms. induction s as [|x s IH]; intros [|m ms] H; try discriminate.
  - constructor.
  - constructor; [reflexivity | apply IH; now injection H].
Qed.

Lemma agree_app m1 x1 y1 m2 x2 y2 :
  agree_outside m1 x1 y1 -> agree_outside m2 x2 y2 ->
  agree_outside (m1 ++ m2) (x1 ++ x2) (y1 ++ y2).
Proof.
  induction 1; intros H2; simpl; [exact H2|]. constructor; auto.
Qed.

Lemma agree_inside xs ys :
  length xs = length ys -> agree_outside (repeat true (length xs)) xs ys.
Proof.
  revert ys. induction xs as [|x xs IH]; intros [|y ys] H; try discriminate.
  - constructor.
  - simpl. constructor; [discriminate | apply IH; now injection H].
Qed.

Lemma agree_lengths ms xs ys :
  agree_outside ms xs ys -> length ms = length xs /\ length ys = length xs.
Proof. induction 1; simpl; [auto | lia]. Qed.

Lemma agree_nth ms xs ys :
  agree_outside ms xs ys ->
  forall i, nth i ms false = false -> nth_error ys i = nth_error xs i.
Proof.
  induction 1 as [|m ms x xs y ys Hm _ IH]; intros [|i] Hi; simpl in *; auto.
  now rewrite Hm.
Qed.

Lemma ptl_agrees line :
  agree_outside (span_mask line) line (process_table_line line).
Proof.
  induction line as [|c rest Hc IH|rest IH|rest Hno|g tail Hg Hno IH]
    using line_ind.
  - rewrite mask_nil, ptl_nil. constructor.
  - rewrite mask_other, ptl_other by exact Hc. now constructor.
  - rewrite mask_empty, ptl_empty. now constructor.
  - rewrite mask_open, ptl_open by exact Hno.
    apply agree_same. simpl. now rewrite repeat_length.
  - rewrite mask_span, ptl_span by assumption.
    constructor; [reflexivity|].
    apply agree_app.
    + apply agree_inside. apply (Forall2_length (process_softens g)).
    + now constructor.
Qed.

Lemma inside_pair_shift pre line i :
  inside_pair line i -> inside_pair (pre ++ line) (length pre + i).
Proof.
  intros (a & b & Ha & Hb & Hna & Hnb & Hbetween).
  exists (length pre + a), (length pre + b).
  repeat split; try lia.
  - rewrite nth_error_app2 by lia.
    now replace (length pre + a - length pre) with a by lia.
  - rewrite nth_error_app2 by lia.
    now replace (length pre + b - length pre) with b by lia.
  - intros j Hj1 Hj2. rewrite nth_error_app2 by lia.
    apply Hbetween; lia.
Qed.

Lemma mask_inside line :
  forall i, nth i (span_mask line) false = true -> inside_pair line i.
Proof.
  induction line as [|c rest Hc IH|rest IH|rest Hno|g tail Hg Hno IH]
    using line_ind; intros i Hi.
  - rewrite mask_nil in Hi. destruct i; discriminate.
  - rewrite mask_other in Hi by exact Hc.
    destruct i as [|i]; [discriminate|].
    apply (inside_pair_shift [c] rest i). now apply IH.
  - rewrite mask_empty in Hi.
    destruct i as [|i]; [discriminate|].
    apply (inside_pair_shift [BACKTICK] (BACKTICK :: rest) i). now apply IH.
  - rewrite mask_open in Hi by exact Hno.
    destruct i as [|i]; [discriminate|].
    simpl in Hi. rewrite nth_repeat in Hi. discriminate.
  - rewrite mask_span in Hi by assumption.
    destruct i as [|i]; [discriminate|]. simpl in Hi.
    destruct (Nat.lt_ge_cases i (length g)) as [Hlt|Hge].
    + exists 0, (S (length g)). repeat split; try lia.
      * simpl. rewrite nth_error_app2 by lia. now rewrite Nat.sub_diag.
      * intros [|j] Hj1 Hj2 Hnth; [lia|]. simpl in Hnth.
        rewrite nth_error_app1 in Hnth by lia.
        apply Hno. eapply nth_error_In; eassumption.
    + rewrite app_nth2 in Hi by (rewrite repeat_length; lia).
      rewrite repeat_length in Hi.
      destruct (i - length g) as [|k] eqn:Hk; [discriminate|].
      simpl in Hi. apply IH in Hi.
      pose proof (inside_pair_shift (BACKTICK :: g ++ [BACKTICK]) tail k Hi)
        as Hs.
      simpl in Hs. rewrite <- app_assoc in Hs. simpl in Hs.
      rewrite length_app in Hs. simpl in Hs.
      now replace (S i) with (S (length g + 1 + k)) by lia.
Qed.

Lemma ptl_keeps_backticks line i :
  nth_error line i = Some BACKTICK ->
  nth_error (process_table_line line) i = Some BACKTICK.
Proof.
  intros Hi.
  destruct (Forall2_nth_error _ _ _ (ptl_softens line) i _ Hi)
    as (b & Hb & [->|[E _]]); [exact Hb | discriminate].
Qed.

(** C5 as stated fails: two adjacent backticks are not matched as a span.
    On [``x y`] the first backtick is copied and the second one opens the
    span [x y], which is rewritten. *)
Lemma adjacent_backticks_not_a_span :
  match_at (BACKTICK :: [] ++ BACKTICK :: of_string "x y`") <> Some [] /\
  code_spans (of_string "``") = [] /\
  code_spans (of_string "``x y`") = [of_string "x y"] /\
  process_table_line (of_string "``x y`")
  = of_string "``x" ++ [NBSP] ++ of_string "y`".
Proof. repeat split. discriminate. Qed.

(** C5, amended: scanning left to right without nesting, the extractor
    matches every pair of backticks that encloses a run of one or more
    characters other than a backtick, and resumes after the closing
    backtick; of two adjacent backticks the first is copied and the scan
    resumes at the second; a backtick with no later backtick opens nothing;
    every span found is non-empty and free of backticks. *)
Theorem code_span_extraction :
  (forall g tail,
      g <> [] -> ~ In BACKTICK g ->
      match_at (BACKTICK :: g ++ BACKTICK :: tail) = Some g /\
      code_spans (BACKTICK :: g ++ BACKTICK :: tail) = g :: code_spans tail /\
      process_table_line (BACKTICK :: g ++ BACKTICK :: tail)
      = BACKTICK :: process_code_in_table g
        ++ BACKTICK :: process_table_line tail) /\
  (forall rest,
      match_at (BACKTICK :: BACKTICK :: rest) = None /\
      code_spans (BACKTICK :: BACKTICK :: rest)
      = code_spans (BACKTICK :: rest) /\
      process_table_line (BACKTICK :: BACKTICK :: rest)
      = BACKTICK :: process_table_line (BACKTICK :: rest)) /\
  (forall c rest,
      c <> BACKTICK ->
      code_spans (c :: rest) = code_spans rest /\
      process_table_line (c :: rest) = c :: process_table_line rest) /\
  (forall rest,
      ~ In BACKTICK rest ->
      code_spans (BACKTICK :: rest) = [] /\
      process_table_line (BACKTICK :: rest) = BACKTICK :: rest) /\
  (forall line,
      Forall (fun g => g <> [] /\ ~ In BACKTICK g) (code_spans line)).
Proof.
  repeat split.
  - now apply match_at_span.
  - now apply spans_span.
  - now apply ptl_span.
  - apply spans_empty.
  - apply ptl_empty.
  - now apply spans_other.
  - now apply ptl_other.
  - now apply spans_open.
  - now apply ptl_open.
  - apply spans_wellformed.
Qed.

Lemma code_span_extraction_witness :
  code_spans (of_string "`a b` c `d`")
  = of_string "a b" :: code_spans (of_string " c `d`") /\
  code_spans (of_string "| `x`") = code_spans (of_string " `x`") /\
  code_spans (of_string "` x") = [].
Proof.
  split; [|split].
  - apply (proj1 code_span_extraction (of_string "a b") (of_string " c `d`")).
    + discriminate.
    + intros H. apply contains_In in H. discriminate H.
  - apply (proj1 (proj2 (proj2 code_span_extraction)) PIPE (of_string " `x`")).
    discriminate.
  - apply (proj1 (proj2 (proj2 (proj2 code_span_extraction)))
             (of_string " x")).
    intros H. apply contains_In in H. discriminate H.
Defined.

(** C6: [process_table_line] keeps the length of the line and changes
    nothing outside the matched spans: every position that the span mask
    does not select holds the same character in the output, and the mask
    selects only positions strictly between two backticks.  So the
    backticks stay where they are, a line without a backtick is returned
    as it is, and so is all text after the last backtick of a line, in
    particular after a lone unpaired one. *)
Theorem process_table_line_frame (line : str) :
  length (process_table_line line) = length line /\
  length (span_mask line) = length line /\
  (forall i, nth i (span_mask line) false = true -> inside_pair line i) /\
  (forall i, nth i (span_mask line) false = false ->
             nth_error (process_table_line line) i = nth_error line i) /\
  (forall i, nth_error line i = Some BACKTICK ->
             nth i (span_mask line) false = false /\
             nth_error (process_table_line line) i = Some BACKTICK) /\
  (~ In BACKTICK line -> process_table_line line = line) /\
  (forall rest, line = BACKTICK :: rest -> ~ In BACKTICK rest ->
                process_table_line line = line) /\
  (forall pre rest, line = pre ++ BACKTICK :: rest -> ~ In BACKTICK rest ->
                    process_table_line line
                    = process_table_line (pre ++ [BACKTICK]) ++ rest) /\
  (forall pre s, line = pre ++ s -> ~ In BACKTICK pre ->
                 process_table_line line = pre ++ process_table_line s).
Proof.
  pose proof (ptl_agrees line) as Hagree.
  destruct (agree_lengths _ _ _ Hagree) as [Hm Hl].
  repeat split.
  - exact Hl.
  - exact Hm.
  - apply mask_inside.
  - now apply agree_nth.
  - destruct (nth i (span_mask line) false) eqn:E; [|reflexivity].
    apply mask_inside in E.
    destruct E as (a & b & Ha & Hb & _ & _ & Hbetween).
    exfalso. now apply (Hbetween i).
  - now apply ptl_keeps_backticks.
  - apply ptl_plain.
  - intros rest -> Hno. now apply ptl_open.
  - intros pre rest -> Hno.
    replace (pre ++ BACKTICK :: rest) with ((pre ++ [BACKTICK]) ++ rest)
      by (now rewrite <- app_assoc).
    now apply ptl_plain_suffix.
  - intros pre s -> Hno. now apply ptl_plain_prefix.
Qed.

Lemma process_table_line_frame_witness :
  let line := of_string "| a b | `c d` | `e f |" in
  nth_error (process_table_line line) 3 = nth_error line 3 /\
  process_table_line line
  = process_table_line (of_string "| a b | `c d` | `") ++ of_string "e f |" /\
  process_table_line (of_string "| a b |") = of_string "| a b |".
Proof.
  cbv zeta. split; [|split].
  - apply (proj1 (proj2 (proj2 (proj2
      (process_table_line_frame (of_string "| a b | `c d` | `e f |"))))) 3).
    reflexivity.
  - apply (proj1 (proj2 (proj2 (proj2 (proj2 (proj2 (proj2 (proj2
      (process_table_line_frame (of_string "| a b | `c d` | `e f |")))))))))
      (of_string "| a b | `c d` | ") (of_string "e f |")).
    + reflexivity.
    + intros H. apply contains_In in H. discriminate H.
  - apply (proj1 (proj2 (proj2 (proj2 (proj2 (proj2
      (process_table_line_frame (of_string "| a b |")))))))).
    intros H. apply contains_In in H. discriminate H.
Defined.

(** ** The line loop *)

Lemma eqb_eq s t : eqb s t = true <-> s = t.
Proof.
  revert t. induction s as [|x s IH]; intros [|y t]; simpl;
    try (split; [discriminate | discriminate]); [tauto|].
  rewrite andb_true_iff, N.eqb_eq, IH.
  split; [intros [-> ->]; reflexivity | intros E; injection E; auto].
Qed.

Lemma loop_body_lines st line :
  processed_lines (loop_body st line)
  = processed_lines st ++ [stateless_line_spec line].
Proof.
  unfold loop_body, stateless_line_spec.
  destruct (is_table_line line); [reflexivity|].
  destruct (in_table st && eqb (strip line) []); reflexivity.
Qed.

Lemma loop_body_flag st line :
  in_table (loop_body st line) = in_table_spec (in_table st) line.
Proof.
  unfold loop_body, in_table_spec, is_table_line.
  destruct (startswith (strip line) PIPE); [reflexivity|].
  destruct (in_table st && eqb (strip line) []); reflexivity.
Qed.

Lemma fold_loop_lines lines st :
  processed_lines (fold_left loop_body lines st)
  = processed_lines st ++ stateless_spec lines.
Proof.
  revert st. induction lines as [|line lines IH]; intros st; simpl.
  - now rewrite app_nil_r.
  - rewrite IH, loop_body_lines, <- app_assoc. reflexivity.
Qed.

Lemma fold_loop_flag lines st :
  in_table (fold_left loop_body lines st)
  = fold_left in_table_spec lines (in_table st).
Proof.
  revert st. induction lines as [|line lines IH]; intros st; simpl.
  - reflexivity.
  - now rewrite IH, loop_body_flag.
Qed.

Lemma run_loop_stateless lines :
  processed_lines (run_loop lines) = stateless_spec lines.
Proof. unfold run_loop. now rewrite fold_loop_lines. Qed.

(** C7: a line whose stripped form does not start with ['|'] is appended
    to the output as it is, whatever the value of [in_table]; in the output
    of the whole loop it stands unchanged at its own index. *)
Theorem plain_line_unchanged :
  (forall st line,
      startswith (strip line) PIPE = false ->
      processed_lines (loop_body st line) = processed_lines st ++ [line]) /\
  (forall lines i line,
      nth_error lines i = Some line ->
      startswith (strip line) PIPE = false ->
      nth_error (processed_lines (run_loop lines)) i = Some line).
Proof.
  split.
  - intros st line H. rewrite loop_body_lines.
    unfold stateless_line_spec, is_table_line. now rewrite H.
  - intros lines i line Hi H. rewrite run_loop_stateless.
    unfold stateless_spec. rewrite nth_error_map, Hi. simpl.
    unfold stateless_line_spec, is_table_line. now rewrite H.
Qed.

Lemma plain_line_unchanged_witness :
  processed_lines
    (loop_body {| processed_lines := []; in_table := true |}
               (of_string "  `a b` | not a row"))
  = [of_string "  `a b` | not a row"] /\
  nth_error
    (processed_lines
       (run_loop [of_string "| `a b` |"; of_string "text `c d`"])) 1
  = Some (of_string "text `c d`").
Proof.
  split.
  - apply (proj1 plain_line_unchanged
             {| processed_lines := []; in_table := true |}
             (of_string "  `a b` | not a row")).
    reflexivity.
  - apply (proj2 plain_line_unchanged
             [of_string "| `a b` |"; of_string "text `c d`"] 1
             (of_string "text `c d`")); reflexivity.
Defined.

(** C8: the flag is set on every table line, cleared only on a plain line
    that is blank once stripped while the flag is set, and kept on every
    other plain line; it follows the rule of the specification over the
    whole loop; and it does not reach the output: the loop produces what
    the stateless map produces, from any two states that hold the same
    output so far. *)
Theorem in_table_is_vestigial :
  (forall st line,
      startswith (strip line) PIPE = true ->
      in_table (loop_body st line) = true) /\
  (forall st line,
      startswith (strip line) PIPE = false ->
      in_table st = true -> strip line = [] ->
      in_table (loop_body st line) = false) /\
  (forall st line,
      startswith (strip line) PIPE = false ->
      in_table st = false \/ strip line <> [] ->
      in_table (loop_body st line) = in_table st) /\
  (forall lines,
      in_table (run_loop lines) = fold_left in_table_spec lines false) /\
  (forall lines, processed_lines (run_loop lines) = stateless_spec lines) /\
  (forall lines st st',
      processed_lines st = processed_lines st' ->
      processed_lines (fold_left loop_body lines st)
      = processed_lines (fold_left loop_body lines st')).
Proof.
  repeat split.
  - intros st line H. rewrite loop_body_flag. unfold in_table_spec.
    now rewrite H.
  - intros st line H Hflag Hblank. rewrite loop_body_flag.
    unfold in_table_spec. rewrite H, Hflag, Hblank. reflexivity.
  - intros st line H Hcase. rewrite loop_body_flag.
    unfold in_table_spec. rewrite H.
    destruct Hcase as [-> | Hne]; [reflexivity|].
    destruct (eqb (strip line) []) eqn:E.
    + apply eqb_eq in E. contradiction.
    + now rewrite andb_false_r.
  - intros lines. unfold run_loop. now rewrite fold_loop_flag.
  - apply run_loop_stateless.
  - intros lines st st' H. now rewrite !fold_loop_lines, H.
Qed.

Lemma in_table_is_vestigial_witness :
  in_table (loop_body loop_init (of_string " | a |")) = true /\
  in_table (loop_body {| processed_lines := []; in_table := true |}
                      (of_string "  ")) = false /\
  in_table (loop_body {| processed_lines := []; in_table := true |}
                      (of_string "text")) = true /\
  processed_lines
    (fold_left loop_body [of_string "| `a b` |"]
               {| processed_lines := []; in_table := true |})
  = processed_lines (fold_left loop_body [of_string "| `a b` |"] loop_init).
Proof.
  split; [|split; [|split]].
  - apply (proj1 in_table_is_vestigial). reflexivity.
  - apply (proj1 (proj2 in_table_is_vestigial)); reflexivity.
  - apply (proj1 (proj2 (proj2 in_table_is_vestigial))
             {| processed_lines := []; in_table := true |} (of_string "text")).
    + reflexivity.
    + right. discriminate.
  - apply (proj2 (proj2 (proj2 (proj2 (proj2 in_table_is_vestigial))))).
    reflexivity.
Defined.

(** ** Running the normalizer twice *)

Lemma softens_isspace a b : softens a b -> isspace b = isspace a.
Proof. intros [->|[-> ->]]; reflexivity. Qed.

Lemma lstrip_head_softens s s' c :
  Forall2 softens s s' ->
  startswith (lstrip s') c = startswith (lstrip s) c.
Proof.
  induction 1 as [|x y l l' Hxy _ IH]; [reflexivity|].
  simpl. rewrite (softens_isspace _ _ Hxy).
  destruct (isspace x) eqn:E; [exact IH|].
  destruct Hxy as [->|[-> _]]; [reflexivity | discriminate].
Qed.

Lemma lstrip_snoc l x :
  isspace x = false -> exists l', lstrip (l ++ [x]) = l' ++ [x].
Proof.
  intros Hx. induction l as [|c l IH]; simpl.
  - rewrite Hx. now exists [].
  - destruct (isspace c); [exact IH|]. now exists (c :: l).
Qed.

Lemma lstrip_head s :
  lstrip s = [] \/ exists x r, lstrip s = x :: r /\ isspace x = false.
Proof.
  induction s as [|c s IH]; simpl; [now left|].
  destruct (isspace c) eqn:E; [exact IH|]. right. eauto.
Qed.

(** Stripping the right end does not change the first character. *)
Lemma strip_startswith s c :
  startswith (strip s) c = startswith (lstrip s) c.
Proof.
  unfold strip. destruct (lstrip_head s) as [->|(x & r & -> & Hx)];
    [reflexivity|].
  unfold rstrip. simpl rev.
  destruct (lstrip_snoc (rev r) x Hx) as (l' & ->).
  rewrite rev_app_distr. reflexivity.
Qed.

Lemma is_table_line_softens s s' :
  Forall2 softens s s' -> is_table_line s' = is_table_line s.
Proof.
  intros H. unfold is_table_line. rewrite !strip_startswith.
  now apply lstrip_head_softens.
Qed.

Lemma stateless_idempotent lines :
  stateless_spec (stateless_spec lines) = stateless_spec lines.
Proof.
  unfold stateless_spec. rewrite map_map. apply map_ext. intros line.
  unfold stateless_line_spec.
  destruct (is_table_line line) eqn:E.
  - rewrite (is_table_line_softens _ _ (ptl_softens line)), E.
    apply ptl_idempotent.
  - now rewrite E.
Qed.

Lemma readlines_line body rest :
  ~ In NEWLINE body ->
  readlines (body ++ NEWLINE :: rest) = (body ++ [NEWLINE]) :: readlines rest.
Proof.
  induction body as [|c body IH]; intros Hno; simpl; [reflexivity|].
  destruct (N.eqb_spec c NEWLINE) as [->|Hne].
  - exfalso. apply Hno. now left.
  - rewrite IH; [reflexivity|]. intros H. apply Hno. now right.
Qed.

Lemma readlines_body body :
  body <> [] -> ~ In NEWLINE body -> readlines body = [body].
Proof.
  induction body as [|c body IH]; intros Hne Hno; [contradiction|].
  simpl. destruct (N.eqb_spec c NEWLINE) as [->|Hc].
  - exfalso. apply Hno. now left.
  - destruct body as [|d body]; [reflexivity|].
    rewrite IH; [reflexivity | discriminate |].
    intros H. apply Hno. now right.
Qed.

Lemma readlines_ok text : lines_ok (readlines text).
Proof.
  induction text as [|c text IH]; simpl; [constructor|].
  destruct (N.eqb_spec c NEWLINE) as [->|Hc].
  - apply (lines_ok_cons [] (readlines text)); [tauto | exact IH].
  - destruct (readlines text) as [|l ls].
    + apply lines_ok_last; [discriminate|].
      intros [E|[]]. congruence.
    + inversion IH as [|body Hne Hno|body ls' Hno Hls]; subst.
      * apply lines_ok_last; [discriminate|].
        intros [E|H]; [congruence | contradiction].
      * apply (lines_ok_cons (c :: body) ls); [|exact Hls].
        intros [E|H]; [congruence | contradiction].
Qed.

Lemma readlines_writelines lines :
  lines_ok lines -> readlines (writelines lines) = lines.
Proof.
  unfold writelines.
  induction 1 as [|body Hne Hno|body ls Hno _ IH]; simpl.
  - reflexivity.
  - rewrite app_nil_r. now apply readlines_body.
  - rewrite <- app_assoc. simpl. rewrite readlines_line by exact Hno.
    now rewrite IH.
Qed.

Lemma NEWLINE_not_SPACE : NEWLINE <> SPACE.
Proof. discriminate. Qed.

Lemma NEWLINE_not_NBSP : NEWLINE <> NBSP.
Proof. discriminate. Qed.

Lemma line_shape_softens body l' :
  ~ In NEWLINE body -> Forall2 softens (body ++ [NEWLINE]) l' ->
  exists body', l' = body' ++ [NEWLINE] /\ ~ In NEWLINE body'.
Proof.
  intros Hno H. apply Forall2_app_inv_l in H.
  destruct H as (l1 & l2 & H1 & H2 & ->).
  inversion H2 as [|x y t t' Hxy Ht]; subst. inversion Ht; subst.
  exists l1. split.
  - destruct Hxy as [->|[E _]]; [reflexivity | discriminate].
  - now apply (softens_keeps NEWLINE _ _ NEWLINE_not_SPACE NEWLINE_not_NBSP H1).
Qed.

Lemma stateless_softens line : Forall2 softens line (stateless_line_spec line).
Proof.
  unfold stateless_line_spec.
  destruct (is_table_line line); [apply ptl_softens | apply softens_all_refl].
Qed.

Lemma stateless_lines_ok lines :
  lines_ok lines -> lines_ok (stateless_spec lines).
Proof.
  unfold stateless_spec.
  induction 1 as [|body Hne Hno|body ls Hno _ IH]; cbn [map].
  - constructor.
  - pose proof (stateless_softens body) as H.
    apply lines_ok_last.
    + intros E. rewrite E in H. inversion H; subst. contradiction.
    + now apply (softens_keeps NEWLINE _ _
                   NEWLINE_not_SPACE NEWLINE_not_NBSP H).
  - destruct (line_shape_softens body _ Hno
                (stateless_softens (body ++ [NEWLINE])))
      as (body' & -> & Hno').
    now apply lines_ok_cons.
Qed.

Lemma normalize_stateless text :
  normalize text = writelines (stateless_spec (readlines text)).
Proof. unfold normalize. now rewrite run_loop_stateless. Qed.

Lemma readlines_normalize text :
  readlines (normalize text) = processed_lines (run_loop (readlines text)).
Proof.
  rewrite normalize_stateless, run_loop_stateless.
  apply readlines_writelines, stateless_lines_ok, readlines_ok.
Qed.

Lemma normalize_idempotent text : normalize (normalize text) = normalize text.
Proof.
  rewrite (normalize_stateless (normalize text)).
  rewrite (normalize_stateless text) at 1.
  rewrite readlines_writelines by apply stateless_lines_ok, readlines_ok.
  rewrite stateless_idempotent. symmetry. apply normalize_stateless.
Qed.

(** ** Reading and writing the file *)

Lemma names_file_not_found filename :
  names_file (msg_not_found filename) filename.
Proof.
  exists (of_string "Error: File '"), (of_string "' not found.").
  reflexivity.
Qed.

Lemma names_file_read_error filename e :
  names_file (msg_read_error filename e) filename.
Proof.
  exists (of_string "Error reading file '"), (of_string "': " ++ e).
  reflexivity.
Qed.

(** A run on a readable and writable file returns normally, rewrites the
    file with [normalize] of its text and reports on standard output. *)
Lemma process_markdown_file_success w filename text :
  files w filename = Some text ->
  read_fault w filename = None ->
  write_faults w filename = None ->
  process_markdown_file filename w
  = (Ret tt,
     {| files := set_file (files w) filename (normalize text);
        read_fault := read_fault w;
        write_faults := write_faults w;
        opened_for_write := opened_for_write w ++ [filename];
        stdout := stdout w ++ [msg_success filename];
        stderr := stderr w |}).
Proof.
  intros Hf Hr Hw.
  unfold process_markdown_file, bind, try_read, try_write, ret.
  rewrite Hf, Hr. simpl. rewrite Hw. reflexivity.
Qed.

Lemma eqb_refl s : eqb s s = true.
Proof. now apply eqb_eq. Qed.

(** A second run on the file a first run has written returns normally and
    leaves every file as the first run left it. *)
Lemma second_run_keeps_files w filename text :
  files w filename = Some text ->
  read_fault w filename = None ->
  write_faults w filename = None ->
  fst (process_markdown_file filename
         (snd (process_markdown_file filename w))) = Ret tt /\
  forall path,
    files (snd (process_markdown_file filename
                  (snd (process_markdown_file filename w)))) path
    = files (snd (process_markdown_file filename w)) path.
Proof.
  intros Hf Hr Hw.
  rewrite (process_markdown_file_success w filename text Hf Hr Hw).
  cbn [snd].
  rewrite (process_markdown_file_success _ filename (normalize text));
    [| cbn [files]; unfold set_file; now rewrite eqb_refl | exact Hr | exact Hw].
  split; [reflexivity|]. intros path. cbn [snd files]. unfold set_file.
  destruct (eqb path filename); [|reflexivity].
  now rewrite normalize_idempotent.
Qed.

(** C4: [process_table_line] is idempotent, and so is the whole
    transformation: on the list of lines, on the text of the file (a second
    run reads back the lines the first run wrote), and on the file store,
    where a second successful run leaves every file as the first one left
    it. *)
Theorem normalizer_idempotent :
  (forall line,
      process_table_line (process_table_line line) = process_table_line line) /\
  (forall lines,
      processed_lines (run_loop (processed_lines (run_loop lines)))
      = processed_lines (run_loop lines)) /\
  (forall text,
      readlines (normalize text) = processed_lines (run_loop (readlines text))) /\
  (forall text, normalize (normalize text) = normalize text) /\
  (forall w filename text,
      files w filename = Some text ->
      read_fault w filename = None ->
      write_faults w filename = None ->
      snd (process_markdown_file filename w)
      = {| files := set_file (files w) filename (normalize text);
           read_fault := read_fault w;
           write_faults := write_faults w;
           opened_for_write := opened_for_write w ++ [filename];
           stdout := stdout w ++ [msg_success filename];
           stderr := stderr w |} /\
      fst (process_markdown_file filename
             (snd (process_markdown_file filename w))) = Ret tt /\
      forall path,
        files (snd (process_markdown_file filename
                      (snd (process_markdown_file filename w)))) path
        = files (snd (process_markdown_file filename w)) path).
Proof.
  split; [|split; [|split; [|split]]].
  - apply ptl_idempotent.
  - intros lines. rewrite !run_loop_stateless. apply stateless_idempotent.
  - apply readlines_normalize.
  - apply normalize_idempotent.
  - intros w filename text Hf Hr Hw. split.
    + now rewrite (process_markdown_file_success w filename text Hf Hr Hw).
    + now apply (second_run_keeps_files w filename text).
Qed.

Lemma normalizer_idempotent_witness :
  fst (process_markdown_file (of_string "t.md")
         (snd (process_markdown_file (of_string "t.md") scenario_world)))
  = Ret tt /\
  forall path,
    files (snd (process_markdown_file (of_string "t.md")
                  (snd (process_markdown_file (of_string "t.md")
                          scenario_world)))) path
    = files (snd (process_markdown_file (of_string "t.md") scenario_world))
        path.
Proof.
  apply (proj2 (proj2 (proj2 (proj2 (proj2 normalizer_idempotent)))
                  scenario_world (of_string "t.md") scenario_text
                  eq_refl eq_refl eq_refl)).
Defined.

(** The end-to-end scenario of the specification: the span of the table
    line is rewritten with the space before ['#'] kept, the blank line and
    the paragraph are copied, and the exit status is 0. *)
Example end_to_end_scenario :
  let (r, w) := main [of_string "fix_tables.py"; of_string "t.md"]
                     scenario_world in
  exit_code r = 0%Z /\
  files w (of_string "t.md")
  = Some (of_string "| `x" ++ [NBSP] ++ of_string "=" ++ [NBSP]
          ++ of_string "1 #" ++ [NBSP] ++ of_string "comment` | y |"
          ++ [NEWLINE] ++ [NEWLINE]
          ++ of_string "A plain paragraph with `a b`." ++ [NEWLINE]) /\
  stdout w = [of_string "Successfully processed 't.md'"] /\
  stderr w = [].
Proof. vm_compute. repeat split. Qed.

Example usage_error :
  main [of_string "fix_tables.py"] scenario_world
  = (Exit 1,
     {| files := files scenario_world;
        read_fault := read_fault scenario_world;
        write_faults := write_faults scenario_world;
        opened_for_write := [];
        stdout := [];
        stderr := [msg_usage] |}).
Proof. reflexivity. Qed.

(** C9: when the first [try] block does not deliver the lines of the file
    (the file is missing, or opening or reading it raises), the program
    prints one message that contains the file name on standard error and
    exits with status 1; nothing is printed on standard output, no file is
    opened for writing and the file store is what it was. *)
Theorem read_failure_exits_without_writing (w : world) (filename : str) :
  (forall lines, fst (try_read filename w) <> Ret (ReadLines lines)) ->
  exists msg,
    names_file msg filename /\
    fst (process_markdown_file filename w) = Exit 1 /\
    exit_code (fst (process_markdown_file filename w)) = 1%Z /\
    stderr (snd (process_markdown_file filename w)) = stderr w ++ [msg] /\
    stdout (snd (process_markdown_file filename w)) = stdout w /\
    opened_for_write (snd (process_markdown_file filename w))
    = opened_for_write w /\
    files (snd (process_markdown_file filename w)) = files w /\
    main [of_string "fix_tables.py"; filename] w
    = process_markdown_file filename w.
Proof.
  intros Hfail.
  unfold main, process_markdown_file, bind. unfold try_read in *.
  destruct (files w filename) as [text|] eqn:Hf.
  - destruct (read_fault w filename) as [e|] eqn:Hr.
    + exists (msg_read_error filename e). simpl.
      split; [apply names_file_read_error | repeat split].
    + exfalso. apply (Hfail (readlines text)). reflexivity.
  - exists (msg_not_found filename). simpl.
    split; [apply names_file_not_found | repeat split].
Qed.

Lemma read_failure_exits_without_writing_witness :
  exists msg,
    names_file msg (of_string "t.md") /\
    fst (process_markdown_file (of_string "t.md") empty_world) = Exit 1 /\
    exit_code (fst (process_markdown_file (of_string "t.md") empty_world))
    = 1%Z /\
    stderr (snd (process_markdown_file (of_string "t.md") empty_world))
    = stderr empty_world ++ [msg] /\
    stdout (snd (process_markdown_file (of_string "t.md") empty_world))
    = stdout empty_world /\
    opened_for_write
      (snd (process_markdown_file (of_string "t.md") empty_world))
    = opened_for_write empty_world /\
    files (snd (process_markdown_file (of_string "t.md") empty_world))
    = files empty_world /\
    main [of_string "fix_tables.py"; of_string "t.md"] empty_world
    = process_markdown_file (of_string "t.md") empty_world.
Proof.
  apply (read_failure_exits_without_writing empty_world (of_string "t.md")).
  intros lines. discriminate.
Defined.

(** * Further properties of the code *)

(** ** The space rewriter: what is left of the ordinary spaces *)

Lemma nbsp_has_no_space s : ~ In SPACE (nbsp s).
Proof. apply replace_removes, SPACE_not_NBSP. Qed.

Lemma nbsp_count s : count_occ N.eq_dec (nbsp s) SPACE = 0.
Proof. apply count_occ_not_In, nbsp_has_no_space. Qed.

Lemma nth_error_not_in {A} (l : list A) i x :
  ~ In x l -> nth_error l i <> Some x.
Proof. intros Hno H. apply Hno. eapply nth_error_In; eassumption. Qed.

(** Where an ordinary space can stand in [pre' ++ ' ' :: '#' :: post'] when
    neither part holds one. *)
Lemma lone_space_index pre post i :
  ~ In SPACE pre -> ~ In SPACE post ->
  nth_error (pre ++ SPACE :: HASH :: post) i = Some SPACE ->
  i = length pre.
Proof.
  intros Hpre Hpost Hi.
  destruct (Nat.lt_trichotomy i (length pre)) as [Hlt|[Heq|Hgt]];
    [exfalso | exact Heq | exfalso].
  - rewrite nth_error_app1 in Hi by exact Hlt.
    exact (nth_error_not_in pre i SPACE Hpre Hi).
  - rewrite nth_error_app2 in Hi by lia.
    destruct (i - length pre) as [|[|k]] eqn:E; [lia | discriminate |].
    simpl in Hi. exact (nth_error_not_in post k SPACE Hpost Hi).
Qed.

(** X10: The result of [process_code_in_table] holds at most one ordinary space,
    and the one it may hold stands right before the first ['#'], in the
    result as in the content. *)
Theorem at_most_one_space_left (code_content : str) :
  count_occ N.eq_dec (process_code_in_table code_content) SPACE <= 1 /\
  forall i,
    nth_error (process_code_in_table code_content) i = Some SPACE ->
    nth_error code_content i = Some SPACE /\
    first_hash code_content (S i) /\
    first_hash (process_code_in_table code_content) (S i).
Proof.
  destruct (hash_shape code_content)
    as [Hno | [(pre & post & -> & Hno) | (pre & post & -> & Hno & Hl)]].
  - rewrite process_branch_none by exact Hno. split.
    + rewrite nbsp_count. lia.
    + intros i Hi. exfalso.
      exact (nth_error_not_in _ i SPACE (nbsp_has_no_space code_content) Hi).
  - rewrite process_space_hash by exact Hno. split.
    + rewrite count_occ_app, nbsp_count. simpl. rewrite nbsp_count. lia.
    + intros i Hi.
      apply lone_space_index in Hi; try apply nbsp_has_no_space.
      rewrite replace_length in Hi. subst i.
      assert (Hshift : forall p q, ~ In HASH p ->
                 first_hash (p ++ SPACE :: HASH :: q) (S (length p))).
      { intros p q Hp.
        assert (Hp' : ~ In HASH (p ++ [SPACE])).
        { intros Hin. apply in_app_or in Hin.
          destruct Hin as [Hin|[E|[]]]; [contradiction | discriminate]. }
        pose proof (first_hash_app _ q Hp') as Hfh.
        rewrite <- app_assoc, length_app in Hfh. simpl in Hfh.
        now replace (S (length p)) with (length p + 1) by lia. }
      split; [|split].
      * rewrite nth_error_app2 by lia. now rewrite Nat.sub_diag.
      * now apply Hshift.
      * rewrite <- (replace_length SPACE NBSP pre). apply Hshift.
        apply replace_keeps_absent; [apply HASH_not_NBSP | exact Hno].
  - rewrite process_bare_hash by assumption. split.
    + rewrite count_occ_app, nbsp_count. simpl. rewrite nbsp_count. lia.
    + intros i Hi. exfalso. revert Hi. apply nth_error_not_in.
      intros Hin. apply in_app_or in Hin. destruct Hin as [Hin|[E|Hin]].
      * exact (nbsp_has_no_space pre Hin).
      * discriminate.
      * exact (nbsp_has_no_space post Hin).
Qed.

Lemma at_most_one_space_left_witness :
  nth_error (of_string "x = 1 # c d") 5 = Some SPACE /\
  first_hash (of_string "x = 1 # c d") 6 /\
  first_hash (process_code_in_table (of_string "x = 1 # c d")) 6.
Proof.
  apply (proj2 (at_most_one_space_left (of_string "x = 1 # c d")) 5).
  reflexivity.
Defined.

Lemma find_softens c s s' :
  c <> SPACE -> c <> NBSP -> Forall2 softens s s' -> find c s' = find c s.
Proof.
  intros Hs Hn H. induction H as [|x y l l' Hxy _ IH]; [reflexivity|].
  simpl. rewrite IH.
  destruct Hxy as [->|[-> ->]]; [reflexivity|].
  destruct (N.eqb_spec SPACE c), (N.eqb_spec NBSP c); congruence.
Qed.

Lemma HASH_not_SPACE : HASH <> SPACE.
Proof. discriminate. Qed.

(** X11: The rewriter is idempotent, returns a content without ordinary space
    as it is, and never moves the first ['#']: [find] gives the same index
    (or -1) on the result as on the content. *)
Theorem rewriter_fixed_points :
  (forall s,
      process_code_in_table (process_code_in_table s)
      = process_code_in_table s) /\
  (forall s, ~ In SPACE s -> process_code_in_table s = s) /\
  (forall s, find HASH (process_code_in_table s) = find HASH s) /\
  (forall s, contains HASH (process_code_in_table s) = contains HASH s).
Proof.
  split; [|split; [|split]].
  - apply process_idempotent.
  - intros s Hsp. destruct (hash_shape s)
      as [Hno | [(pre & post & -> & Hno) | (pre & post & -> & Hno & Hl)]].
    + rewrite process_branch_none by exact Hno. now apply replace_absent.
    + exfalso. apply Hsp. apply in_or_app. right. now left.
    + rewrite process_bare_hash by assumption.
      rewrite !replace_absent; [reflexivity | |].
      * intros H. apply Hsp. apply in_or_app. right. now right.
      * intros H. apply Hsp. apply in_or_app. now left.
  - intros s. apply find_softens;
      [apply HASH_not_SPACE | apply HASH_not_NBSP | apply process_softens].
  - intros s.
    pose proof (find_softens HASH s (process_code_in_table s)
                  HASH_not_SPACE HASH_not_NBSP (process_softens s)) as Hf.
    pose proof (find_nonneg_iff HASH s) as H1.
    pose proof (find_nonneg_iff HASH (process_code_in_table s)) as H2.
    rewrite Hf in H2.
    destruct (contains HASH s) eqn:E1,
             (contains HASH (process_code_in_table s)) eqn:E2;
      try reflexivity; exfalso.
    + apply contains_In in E1. apply H1, H2, contains_In in E1. congruence.
    + apply contains_In in E2. apply H2, H1, contains_In in E2. congruence.
Qed.

Lemma rewriter_fixed_points_witness :
  process_code_in_table (of_string "a=b#c") = of_string "a=b#c".
Proof.
  apply (proj1 (proj2 rewriter_fixed_points) (of_string "a=b#c")).
  intros H. apply contains_In in H. discriminate H.
Defined.

(** X15: Whenever the code reads [code_content[hash_pos - 1]] (the content holds
    ['#'] and [hash_pos > 0]) the index lies in [0, len): the read yields a
    character and no [IndexError] is raised. *)
Theorem no_index_error (code_content : str) :
  contains HASH code_content = true ->
  (0 < find HASH code_content)%Z ->
  (0 <= find HASH code_content - 1 < len code_content)%Z /\
  exists c, getitem code_content (find HASH code_content - 1) = Some c.
Proof.
  intros Hc Hpos. pose proof (space_probe_in_range code_content Hc Hpos) as H.
  split.
  - split; [lia|]. unfold getitem in H.
    destruct (Z.leb_spec (len code_content) (find HASH code_content - 1));
      [|assumption].
    rewrite orb_true_r in H. contradiction.
  - destruct (getitem code_content (find HASH code_content - 1)) as [c|];
      [now exists c | contradiction].
Qed.

Lemma no_index_error_witness :
  exists c, getitem (of_string "x = 1 # c")
                    (find HASH (of_string "x = 1 # c") - 1) = Some c.
Proof.
  apply (proj2 (no_index_error (of_string "x = 1 # c") eq_refl eq_refl)).
Defined.

(** ** The scan: nothing is lost, and the spans of the output *)

(** X13: Putting every span back between its backticks gives the line back: the
    scan splits the line without losing or reordering a character. *)
Theorem substitution_by_itself_is_identity (line : str) :
  re_sub (fun g => [BACKTICK] ++ g ++ [BACKTICK]) line = line /\
  length line
  = list_sum (map (fun p => match p with
                            | Lit _ => 1
                            | Code g => length g + 2
                            end) (scan line)).
Proof.
  unfold re_sub.
  induction line as [|c rest Hc IH|rest IH|rest Hno|g tail Hg Hno IH]
    using line_ind.
  - rewrite scan_equation_1. split; reflexivity.
  - rewrite scan_other by exact Hc. destruct IH as [IH1 IH2]. split.
    + cbn [flat_map]. now rewrite IH1.
    + simpl in *. now rewrite <- IH2.
  - rewrite scan_empty. destruct IH as [IH1 IH2]. split.
    + cbn [flat_map]. now rewrite IH1.
    + simpl in *. now rewrite <- IH2.
  - rewrite scan_open by exact Hno. split.
    + cbn [flat_map]. rewrite (flat_map_Lit _ (fun c => c)) by reflexivity.
      now rewrite map_id.
    + simpl. f_equal. rewrite map_map. clear Hno.
      induction rest as [|x rest IH]; simpl; [reflexivity | now rewrite <- IH].
  - rewrite scan_span by assumption. destruct IH as [IH1 IH2]. split.
    + cbn [flat_map]. rewrite IH1. simpl. now rewrite <- app_assoc.
    + simpl in *. rewrite <- IH2, length_app. simpl. lia.
Qed.

Lemma rewriter_space_count s :
  count_occ N.eq_dec (process_code_in_table s) SPACE <= 1.
Proof.
  destruct (hash_shape s)
    as [Hno | [(pre & post & -> & Hno) | (pre & post & -> & Hno & Hl)]].
  - rewrite process_branch_none by exact Hno. rewrite nbsp_count. lia.
  - rewrite process_space_hash by exact Hno.
    rewrite count_occ_app, nbsp_count. simpl. rewrite nbsp_count. lia.
  - rewrite process_bare_hash by assumption.
    rewrite count_occ_app, nbsp_count. simpl. rewrite nbsp_count. lia.
Qed.

Lemma mask_after_ptl line : span_mask (process_table_line line) = span_mask line.
Proof.
  induction line as [|c rest Hc IH|rest IH|rest Hno|g tail Hg Hno IH]
    using line_ind.
  - now rewrite ptl_nil.
  - rewrite ptl_other by exact Hc. rewrite !mask_other by exact Hc.
    now rewrite IH.
  - rewrite ptl_empty. destruct (ptl_head_backtick rest) as (out & Hout).
    rewrite Hout in *. rewrite !mask_empty. now rewrite IH.
  - now rewrite ptl_open.
  - rewrite ptl_span by assumption.
    rewrite !mask_span
      by (try apply process_keeps_nonempty;
          try apply process_keeps_backtick_free; assumption).
    rewrite IH. rewrite <- (Forall2_length (process_softens g)). reflexivity.
Qed.

Lemma spans_after_ptl line :
  code_spans (process_table_line line)
  = map process_code_in_table (code_spans line).
Proof.
  induction line as [|c rest Hc IH|rest IH|rest Hno|g tail Hg Hno IH]
    using line_ind.
  - rewrite ptl_nil. unfold code_spans. now rewrite scan_equation_1.
  - rewrite ptl_other by exact Hc. rewrite !spans_other by exact Hc.
    exact IH.
  - rewrite ptl_empty. destruct (ptl_head_backtick rest) as (out & Hout).
    rewrite Hout in *. rewrite !spans_empty. exact IH.
  - rewrite ptl_open by exact Hno. now rewrite spans_open.
  - rewrite ptl_span by assumption.
    rewrite (spans_span g tail) by assumption.
    rewrite spans_span
      by (try apply process_keeps_nonempty;
          try apply process_keeps_backtick_free; assumption).
    simpl. now rewrite IH.
Qed.

(** X12: The output of [process_table_line] has its spans at the places of the
    input's spans, and they are the rewritten spans of the input, in order;
    so every span of the output holds at most one ordinary space. *)
Theorem spans_of_the_output (line : str) :
  span_mask (process_table_line line) = span_mask line /\
  code_spans (process_table_line line)
  = map process_code_in_table (code_spans line) /\
  Forall (fun g => count_occ N.eq_dec g SPACE <= 1)
         (code_spans (process_table_line line)).
Proof.
  split; [apply mask_after_ptl | split; [apply spans_after_ptl|]].
  rewrite spans_after_ptl. apply Forall_map, Forall_forall.
  intros g _. apply rewriter_space_count.
Qed.

(** ** The two tests of the loop *)

Lemma lstrip_split s :
  exists ws, forallb isspace ws = true /\ s = ws ++ lstrip s.
Proof.
  induction s as [|c s (ws & Hws & Hs)]; simpl; [now exists []|].
  destruct (isspace c) eqn:E.
  - exists (c :: ws). simpl. rewrite E, Hws. split; [reflexivity | congruence].
  - now exists [].
Qed.

Lemma lstrip_app_ws ws s :
  forallb isspace ws = true -> lstrip (ws ++ s) = lstrip s.
Proof.
  induction ws as [|c ws IH]; simpl; [reflexivity|].
  intros H. apply andb_true_iff in H. destruct H as [Hc Hws].
  rewrite Hc. now apply IH.
Qed.

Lemma strip_nil_iff s : strip s = [] <-> lstrip s = [].
Proof.
  unfold strip. destruct (lstrip_head s) as [->|(x & r & -> & Hx)].
  - split; reflexivity.
  - unfold rstrip. simpl rev.
    destruct (lstrip_snoc (rev r) x Hx) as (l' & ->).
    rewrite rev_app_distr. simpl. split; discriminate.
Qed.

(** X14: A line is a table line exactly when its first character that is not
    whitespace is ['|'] (what follows does not matter), and it counts as
    blank exactly when all its characters are whitespace. *)
Theorem line_tests (line : str) :
  (is_table_line line = true <->
   exists ws rest, forallb isspace ws = true /\ line = ws ++ PIPE :: rest) /\
  (eqb (strip line) [] = true <-> forallb isspace line = true).
Proof.
  split.
  - unfold is_table_line. rewrite strip_startswith. split.
    + intros H. destruct (lstrip_split line) as (ws & Hws & Hline).
      destruct (lstrip line) as [|x r]; [discriminate|].
      simpl in H. apply N.eqb_eq in H. subst x. now exists ws, r.
    + intros (ws & rest & Hws & ->).
      rewrite lstrip_app_ws by exact Hws. reflexivity.
  - rewrite eqb_eq, strip_nil_iff. split.
    + intros H. destruct (lstrip_split line) as (ws & Hws & Hline).
      rewrite H, app_nil_r in Hline. now subst.
    + intros H. rewrite <- (app_nil_r line).
      now rewrite lstrip_app_ws.
Qed.

Lemma line_tests_witness :
  is_table_line (of_string "   | a | b |  ") = true /\
  eqb (strip (of_string "   ")) [] = true.
Proof.
  split.
  - apply (proj2 (proj1 (line_tests (of_string "   | a | b |  ")))).
    exists (of_string "   "), (of_string " a | b |  "). split; reflexivity.
  - apply (proj2 (proj2 (line_tests (of_string "   ")))). reflexivity.
Defined.

(** ** The loop and the text it writes *)

Lemma stateless_line_class line :
  is_table_line (stateless_line_spec line) = is_table_line line.
Proof. apply is_table_line_softens, stateless_softens. Qed.

(** X6: The loop returns as many lines as it was given, in order; each differs
    from its input line at most by ordinary spaces that became no-break
    spaces, and is a table line exactly when the input line is. *)
Theorem loop_output_line_by_line (lines : list str) :
  length (processed_lines (run_loop lines)) = length lines /\
  Forall2 (fun line out =>
             Forall2 softens line out /\
             length out = length line /\
             is_table_line out = is_table_line line)
          lines (processed_lines (run_loop lines)).
Proof.
  rewrite run_loop_stateless. unfold stateless_spec. split.
  - apply length_map.
  - induction lines as [|line lines IH]; simpl; constructor; [|exact IH].
    pose proof (stateless_softens line) as H.
    split; [exact H | split].
    + symmetry. exact (Forall2_length H).
    + apply stateless_line_class.
Qed.

Lemma writelines_readlines text : writelines (readlines text) = text.
Proof.
  unfold writelines. induction text as [|c text IH]; simpl; [reflexivity|].
  destruct (N.eqb c NEWLINE).
  - simpl. now rewrite IH.
  - destruct (readlines text) as [|l ls]; simpl in *; now rewrite <- IH.
Qed.







Lemma readlines_nil text : readlines text = [] -> text = [].
Proof.
  intros H. rewrite <- (writelines_readlines text). now rewrite H.
Qed.

Lemma readlines_app body rest :
  readlines ((body ++ [NEWLINE]) ++ rest)
  = readlines (body ++ [NEWLINE]) ++ readlines rest.
Proof.
  induction body as [|c body IH]; simpl; [reflexivity|].
  destruct (N.eqb c NEWLINE); simpl; [now rewrite IH|].
  rewrite IH.
  destruct (readlines (body ++ [NEWLINE])) as [|l ls] eqn:E; [|reflexivity].
  apply readlines_nil in E. now destruct body.
Qed.

(** X9: Lines are rewritten independently of each other: the loop distributes
    over the concatenation of two lists of lines, and the text written
    distributes over a cut of the text after a newline. *)
Theorem normalize_line_local :
  (forall lines1 lines2,
      processed_lines (run_loop (lines1 ++ lines2))
      = processed_lines (run_loop lines1)
        ++ processed_lines (run_loop lines2)) /\
  (forall text1 text2,
      normalize ((text1 ++ [NEWLINE]) ++ text2)
      = normalize (text1 ++ [NEWLINE]) ++ normalize text2).
Proof.
  split.
  - intros lines1 lines2. rewrite !run_loop_stateless.
    apply map_app.
  - intros text1 text2. rewrite !normalize_stateless.
    rewrite readlines_app. unfold stateless_spec, writelines.
    now rewrite map_app, concat_app.
Qed.

(** ** The command line, the write back and the exit status *)







(** X3: When the file was read but opening it for writing or writing to it
    raises, the program prints one message with the file name and the text
    of the exception on standard error and exits with status 1; no success
    line is printed. *)
Theorem write_failure_is_reported
        (w : world) (script filename text : str) (fault : write_fault) :
  files w filename = Some text ->
  read_fault w filename = None ->
  write_faults w filename = Some fault ->
  let cause := match fault with
               | OpenRefused cause => cause
               | WriteTorn cause _ => cause
               end in
  fst (main [script; filename] w) = Exit 1 /\
  stderr (snd (main [script; filename] w))
  = stderr w ++ [msg_write_error filename cause] /\
  names_file (msg_write_error filename cause) filename /\
  (exists before, msg_write_error filename cause = before ++ cause) /\
  stdout (snd (main [script; filename] w)) = stdout w /\
  opened_for_write (snd (main [script; filename] w))
  = opened_for_write w ++ [filename].
Proof.
  intros Hf Hr Hw cause.
  assert (Hnames : names_file (msg_write_error filename cause) filename).
  { exists (of_string "Error writing file '"), (of_string "': " ++ cause).
    reflexivity. }
  assert (Hends : exists before,
             msg_write_error filename cause = before ++ cause).
  { exists (of_string "Error writing file '" ++ filename ++ of_string "': ").
    unfold msg_write_error. now rewrite <- !app_assoc. }
  unfold main, process_markdown_file, bind, try_read, try_write.
  rewrite Hf, Hr. cbn [ret]. rewrite Hw.
  destruct fault as [c|c n]; cbn; repeat split; assumption.
Qed.

Lemma write_failure_is_reported_witness :
  fst (main [of_string "fix_tables.py"; of_string "t.md"] readonly_world)
  = Exit 1 /\
  stdout (snd (main [of_string "fix_tables.py"; of_string "t.md"]
                    readonly_world)) = [].
Proof.
  pose proof (write_failure_is_reported readonly_world
                (of_string "fix_tables.py") (of_string "t.md") scenario_text
                (OpenRefused (of_string "Permission denied"))
                eq_refl eq_refl eq_refl) as H.
  exact (conj (proj1 H) (proj1 (proj2 (proj2 (proj2 (proj2 H)))))).
Defined.




